(** * Segmented sieve of Eratosthenes on eight threads: model and proofs

    A shallow embedding of [8_threads.cpp]: the base sieve [simpleSieve],
    the segment worker [sieveWorker] and the partition, merge and summary
    code of [main].

    Modelling conventions.
    - [int] and [long long] values are integers of [Z]; every arithmetic
      result is reduced to the 32- or 64-bit two's-complement range
      ([wrap32], [wrap64]).  Where no operation leaves the range this is
      the arithmetic of the C++ standard; where one does, the standard
      leaves the behaviour undefined and the model follows the wrap-around
      of the usual targets.
    - [vector<T>] is a list.  Element access is checked: an index outside
      the vector is the fault [OutOfBounds]; constructing a vector with a
      negative size (a huge [size_t]) is the fault [LengthError].
      Allocation of any non-negative size is taken to succeed.
    - [for] loops are [while] with fuel: the length of the vector the loop
      walks, an upper bound on the number of iterations that stay in
      bounds ([numThreads] for the launch loop, ten for the last loop of
      [main]).  Running out of it is the fault [OutOfFuel]; the loop rules
      below show that it is enough wherever no operation leaves its type.
    - The threads only interact through the append to the shared result
      vector, made under [resultMutex]; a run is determined by the order
      in which the workers reach that append, given by a scheduler.
    - [sqrt] on [double] is a parameter of [main], see [double_sqrt]. *)

From Stdlib Require Import ZArith Zdivisibility Lia.
From stdpp Require Import base list sorting.

Local Open Scope Z_scope.

(** ** Machine integers *)

Definition wrap (bits x : Z) : Z :=
  (x + 2 ^ (bits - 1)) mod 2 ^ bits - 2 ^ (bits - 1).

Definition wrap32 (x : Z) : Z := wrap 32 x.
Definition wrap64 (x : Z) : Z := wrap 64 x.

Definition INT_MAX : Z := 2147483647.
Definition INT_MIN : Z := -2147483648.
Definition LLONG_MAX : Z := 9223372036854775807.
Definition LLONG_MIN : Z := -9223372036854775808.

(** ** Faults and the outcome monad *)

Inductive fault : Set :=
| OutOfBounds
| LengthError
| DivByZero
| OutOfFuel.

Inductive outcome (A : Type) : Type :=
| Ok (a : A)
| Fault (f : fault).

Arguments Ok {A} a.
Arguments Fault {A} f.

Definition bind {A B} (m : outcome A) (k : A → outcome B) : outcome B :=
  match m with
  | Ok a => k a
  | Fault f => Fault f
  end.

Notation "'let*' x := m 'in' k" := (bind m (fun x => k))
  (at level 10, x name, m at level 100, k at level 200).
Notation "'let*' ' p := m 'in' k" := (bind m (fun x => let 'p := x in k))
  (at level 10, p pattern, m at level 100, k at level 200).

Fixpoint foldM {A B} (f : A → B → outcome A) (l : list B) (a : A) : outcome A :=
  match l with
  | [] => Ok a
  | x :: l' => let* a' := f a x in foldM f l' a'
  end.

(** ** Vectors *)

Definition vec_new {A} (n : Z) (x : A) : outcome (list A) :=
  if n <? 0 then Fault LengthError else Ok (replicate (Z.to_nat n) x).

Definition vec_get {A} (v : list A) (i : Z) : outcome A :=
  if i <? 0 then Fault OutOfBounds
  else match v !! Z.to_nat i with
       | Some x => Ok x
       | None => Fault OutOfBounds
       end.

Definition vec_set {A} (v : list A) (i : Z) (x : A) : outcome (list A) :=
  if (0 <=? i) && (i <? Z.of_nat (length v))
  then Ok (<[Z.to_nat i := x]> v)
  else Fault OutOfBounds.

(** ** Loops *)

Fixpoint while {S} (fuel : nat) (cond : S → bool) (body : S → outcome S)
    (s : S) : outcome S :=
  match fuel with
  | O => if cond s then Fault OutOfFuel else Ok s
  | S n => if cond s then (let* s' := body s in while n cond body s') else Ok s
  end.

(** ** [simpleSieve] *)

(** [for (int j = i * i; j <= limit; j += i) isPrime[j] = false;] *)
Definition mark_multiples (limit i : Z) (isPrime : list bool) : outcome (list bool) :=
  let* '(_, isPrime) :=
    while (length isPrime)
      (fun '(j, _) => j <=? limit)
      (fun '(j, isPrime) =>
         let* isPrime := vec_set isPrime j false in
         Ok (wrap32 (j + i), isPrime))
      (wrap32 (i * i), isPrime) in
  Ok isPrime.

(** [for (int i = 2; i * i <= limit; i++) if (isPrime[i]) ...] *)
Definition sieve_loop (limit : Z) (isPrime : list bool) : outcome (list bool) :=
  let* '(_, isPrime) :=
    while (length isPrime)
      (fun '(i, _) => wrap32 (i * i) <=? limit)
      (fun '(i, isPrime) =>
         let* b := vec_get isPrime i in
         let* isPrime := (if b : bool then mark_multiples limit i isPrime
                     else Ok isPrime) in
         Ok (wrap32 (i + 1), isPrime))
      (2, isPrime) in
  Ok isPrime.

(** [for (int i = 2; i <= limit; i++) if (isPrime[i]) primes.push_back(i);] *)
Definition collect_primes (limit : Z) (isPrime : list bool) : outcome (list Z) :=
  let* '(_, primes) :=
    while (length isPrime)
      (fun '(i, _) => i <=? limit)
      (fun '(i, primes) =>
         let* b := vec_get isPrime i in
         Ok (wrap32 (i + 1), if b : bool then primes ++ [i] else primes))
      (2, []) in
  Ok primes.

Definition simpleSieve (limit : Z) : outcome (list Z) :=
  let* isPrime := vec_new (wrap32 (limit + 1)) true in
  let* isPrime := vec_set isPrime 1 false in
  let* isPrime := vec_set isPrime 0 false in
  let* isPrime := sieve_loop limit isPrime in
  collect_primes limit isPrime.

(** ** [sieveWorker] *)

(** [max((long long)prime * prime, ((start + prime - 1) / prime) * prime)];
    [/] truncates towards zero. *)
Definition firstMultiple (start prime : Z) : Z :=
  Z.max (wrap64 (prime * prime))
        (wrap64 (wrap64 (Z.quot (wrap64 (wrap64 (start + prime) - 1)) prime) * prime)).

(** [for (long long j = firstMultiple; j <= end; j += prime)
       isPrime[j - start] = false;] *)
Definition mark_prime (start end_ : Z) (isPrime : list bool) (prime : Z)
    : outcome (list bool) :=
  if prime =? 0 then Fault DivByZero
  else
    let* '(_, isPrime) :=
      while (length isPrime)
        (fun '(j, _) => j <=? end_)
        (fun '(j, isPrime) =>
           let* isPrime := vec_set isPrime (wrap64 (j - start)) false in
           Ok (wrap64 (j + prime), isPrime))
        (firstMultiple start prime, isPrime) in
    Ok isPrime.

(** The local mapping after [for (int prime : smallPrimes) ...]. *)
Definition mark_composites (start end_ : Z) (smallPrimes : list Z)
    : outcome (list bool) :=
  let* isPrime := vec_new (wrap64 (wrap64 (end_ - start) + 1)) true in
  foldM (mark_prime start end_) smallPrimes isPrime.

(** [for (long long i = start; i <= end; i++)
       if (i > 1 && isPrime[i - start]) localPrimes.push_back(i);] *)
Definition collect_segment (start end_ : Z) (isPrime : list bool)
    : outcome (list Z) :=
  let* '(_, localPrimes) :=
    while (length isPrime)
      (fun '(i, _) => i <=? end_)
      (fun '(i, localPrimes) =>
         let* b := (if 1 <? i then vec_get isPrime (wrap64 (i - start))
                    else Ok false) in
         Ok (wrap64 (i + 1), if b : bool then localPrimes ++ [i] else localPrimes))
      (start, []) in
  Ok localPrimes.

(** The worker reads [smallPrimes], and its only effect is the append to
    the shared [result] vector, passed in and returned. *)
Definition sieveWorker (start end_ : Z) (smallPrimes : list Z) (result : list Z)
    : outcome (list Z) :=
  let* isPrime := mark_composites start end_ smallPrimes in
  let* localPrimes := collect_segment start end_ isPrime in
  Ok (result ++ localPrimes).

(** ** [main] *)

Record summary : Type := Summary {
  finalPrimes : list Z;
  count : Z;
  sum : Z;
  topTenPrimes : list Z
}.

(** [rangeSize] and [chunkSize], lines 82 and 83. *)
Definition chunk_size (start end_ numThreads : Z) : outcome Z :=
  let rangeSize := wrap64 (wrap64 (end_ - start) + 1) in
  if numThreads =? 0 then Fault DivByZero
  else Ok (wrap64 (Z.quot (wrap64 (wrap64 (rangeSize + numThreads) - 1)) numThreads)).

(** The launch loop, lines 86 to 94: the chunks handed to threads, in
    launch order.  The loop state is [i], whether [break] was taken, and
    the chunks launched so far. *)
Definition launch (start end_ numThreads chunkSize : Z) : outcome (list (Z * Z)) :=
  let* '(_, _, threads) :=
    while (Z.to_nat numThreads)
      (fun '(i, stop, _) => negb stop && (i <? numThreads))
      (fun '(i, _, threads) =>
         let chunkStart := wrap64 (start + wrap64 (i * chunkSize)) in
         let chunkEnd := Z.min end_ (wrap64 (wrap64 (chunkStart + chunkSize) - 1)) in
         if chunkStart >? end_ then Ok (i, true, threads)
         else Ok (wrap32 (i + 1), false, threads ++ [(chunkStart, chunkEnd)]))
      (0, false, []) in
  Ok threads.

Definition chunks (start end_ numThreads : Z) : outcome (list (Z * Z)) :=
  let* chunkSize := chunk_size start end_ numThreads in
  launch start end_ numThreads chunkSize.

(** A scheduler orders the launched workers by the moment each takes
    [resultMutex]; it may be any rearrangement of the launch order. *)
Definition scheduler : Type := list (Z * Z) → list (Z * Z).

Definition fair (sched : scheduler) : Prop := ∀ l, sched l ≡ₚ l.

(** Lines 82 to 99: launch, run and join the workers. *)
Definition run_workers (sched : scheduler) (start end_ numThreads : Z)
    (smallPrimes : list Z) : outcome (list Z) :=
  let* threads := chunks start end_ numThreads in
  foldM (fun finalPrimes '(chunkStart, chunkEnd) =>
           sieveWorker chunkStart chunkEnd smallPrimes finalPrimes)
        (sched threads) [].

(** [for (long long p : finalPrimes) sum += p;] *)
Definition sum_primes (finalPrimes : list Z) : Z :=
  fold_left (fun sum p => wrap64 (sum + p)) finalPrimes 0.

(** [for (int i = max(0, count - 10); i < count; ++i)
       topTenPrimes.push_back(finalPrimes[i]);] *)
Definition top_ten (finalPrimes : list Z) (count : Z) : outcome (list Z) :=
  let* '(_, topTenPrimes) :=
    while 10%nat
      (fun '(i, _) => i <? count)
      (fun '(i, topTenPrimes) =>
         let* p := vec_get finalPrimes i in
         Ok (wrap32 (i + 1), topTenPrimes ++ [p]))
      (Z.max 0 (wrap32 (count - 10)), []) in
  Ok topTenPrimes.

(** Lines 106 to 115: the sum, the count and the last ten of the sorted
    vector. *)
Definition summary_of (finalPrimes : list Z) : outcome summary :=
  let sum := sum_primes finalPrimes in
  let count := wrap32 (Z.of_nat (length finalPrimes)) in
  let* topTenPrimes := top_ten finalPrimes count in
  Ok (Summary finalPrimes count sum topTenPrimes).

(** Lines 101 to 115.  [std::sort] on integers returns the one ascending
    arrangement of the vector, here computed by a merge sort. *)
Definition summarize (finalPrimes : list Z) : outcome summary :=
  summary_of (merge_sort Z.le finalPrimes).

(** [long long limit = sqrt(end);] converts [end] to [double], takes the
    correctly rounded root and truncates it.  The function is a parameter
    [sqrt_ll] of [main], known by two facts of IEEE 754 arithmetic: it is
    the integer square root where [end] converts exactly, below 2^52, and it
    is at most one off on the rest of [long long]. *)
Definition double_sqrt (sqrt_ll : Z → Z) : Prop :=
  (∀ x, 0 ≤ x < 2 ^ 52 → sqrt_ll x = Z.sqrt x) ∧
  (∀ x, 0 ≤ x ≤ LLONG_MAX → Z.sqrt x - 1 ≤ sqrt_ll x ≤ Z.sqrt x + 1).

(** [main], with the three constants of lines 70 to 72 as parameters. *)
Definition main (sqrt_ll : Z → Z) (sched : scheduler) (start end_ numThreads : Z)
    : outcome summary :=
  let limit := sqrt_ll end_ in
  let* smallPrimes := simpleSieve (wrap32 limit) in
  let* finalPrimes := run_workers sched start end_ numThreads smallPrimes in
  summarize finalPrimes.

(** * Specification vocabulary *)

(** [struck_below i k]: the base sieve has cleared [k] by the time its outer
    loop reaches [i]: some [d] below [i] divides [k], with [d * d <= k]. *)
Definition struck_below (i k : Z) : Prop := ∃ d, 2 ≤ d < i ∧ d * d ≤ k ∧ (d | k).

(** The mapping of the base sieve when its outer loop reaches [i]. *)
Definition sieved (limit i : Z) (v : list bool) : Prop :=
  length v = Z.to_nat (limit + 1) ∧
  ∀ k b, 0 ≤ k ≤ limit → v !! Z.to_nat k = Some b →
         (b = true ↔ 2 ≤ k ∧ ¬ struck_below i k).

(** The flag of [k] is set in [v]. *)
Definition flagged (v : list bool) (k : Z) : Prop := v !! Z.to_nat k = Some true.

Global Instance flagged_dec v k : Decision (flagged v k).
Proof. unfold flagged. apply _. Defined.

Global Instance Z_divide_dec : RelDecision Z.divide.
Proof.
  refine (λ a b, if decide (a = 0) then cast_if (decide (b = 0))
                 else cast_if (decide (b mod a = 0))).
  - subst. apply Z.divide_0_r.
  - subst. by intros ->%Z.divide_0_l.
  - by apply Z.mod_divide.
  - by rewrite <-Z.mod_divide.
Defined.

(** [struck ps n]: an entry [p] of [ps] strikes [n] out, as a multiple of
    [p] that is at least [p * p]. *)
Definition struck (ps : list Z) (n : Z) : Prop :=
  Exists (λ p, p * p ≤ n ∧ (p | n)) ps.

(** What a worker keeps of its chunk. *)
Definition kept (ps : list Z) (n : Z) : Prop := 1 < n ∧ ¬ struck ps n.

(** The local result of a worker on [[chunkStart, chunkEnd]]. *)
Definition segment (ps : list Z) (chunkStart chunkEnd : Z) : list Z :=
  filter (kept ps) (seqZ chunkStart (chunkEnd - chunkStart + 1)).

(** The local mapping of a worker on [[start, end_]] once the entries [ps]
    have been applied. *)
Definition marked (start end_ : Z) (ps : list Z) (v : list bool) : Prop :=
  length v = Z.to_nat (end_ - start + 1) ∧
  ∀ k b, start ≤ k ≤ end_ → v !! Z.to_nat (k - start) = Some b →
         (b = true ↔ ¬ struck ps k).

(** A base prime the worker can apply on a chunk ending at [end_] without
    leaving the [long long] range. *)
Definition applicable (end_ p : Z) : Prop :=
  1 ≤ p ≤ INT_MAX ∧ end_ + p ≤ LLONG_MAX.

(** The chunk of worker [i]. *)
Definition chunk_of (start end_ chunkSize i : Z) : Z * Z :=
  (start + i * chunkSize, Z.min end_ (start + i * chunkSize + chunkSize - 1)).

(** [tiles a l b]: the chunks of [l], in order, are non-empty, each starts
    right after the previous one ends, the first starts at [a] and the last
    ends at [b]; no chunk at all tiles the empty range only. *)
Fixpoint tiles (a : Z) (l : list (Z * Z)) (b : Z) : Prop :=
  match l with
  | [] => a = b + 1
  | (chunkStart, chunkEnd) :: l' =>
      chunkStart = a ∧ chunkStart ≤ chunkEnd ≤ b ∧ tiles (chunkEnd + 1) l' b
  end.

(** The exact sum of a sequence. *)
Definition total (l : list Z) : Z := foldr Z.add 0 l.

(** No running total of [l], taken from the left, leaves [long long]. *)
Definition sum_fits (l : list Z) : Prop :=
  ∀ k, (k ≤ length l)%nat → LLONG_MIN ≤ total (take k l) ≤ LLONG_MAX.

(** Trial division from [d] upwards, for the primality of one constant. *)
Fixpoint no_divisor_from (fuel : nat) (d n : Z) : bool :=
  match fuel with
  | O => false
  | S fuel' =>
      if n <? d * d then true
      else if n mod d =? 0 then false
      else no_divisor_from fuel' (d + 1) n
  end.

(** * Runs on concrete inputs *)

Example simpleSieve_30 : simpleSieve 30 = Ok [2; 3; 5; 7; 11; 13; 17; 19; 23; 29].
Proof. vm_compute. reflexivity. Qed.

Example sieveWorker_26_50 :
  sieveWorker 26 50 [2; 3; 5; 7] [1] = Ok [1; 29; 31; 37; 41; 43; 47].
Proof. vm_compute. reflexivity. Qed.

Example main_1_100_4 :
  main Z.sqrt reverse 1 100 4 =
  Ok (Summary [2; 3; 5; 7; 11; 13; 17; 19; 23; 29; 31; 37; 41; 43; 47; 53; 59;
               61; 67; 71; 73; 79; 83; 89; 97]
              25 1060 [53; 59; 61; 67; 71; 73; 79; 83; 89; 97]).
Proof. vm_compute. reflexivity. Qed.

Example chunks_1_5_4 : chunks 1 5 4 = Ok [(1, 2); (3, 4); (5, 5)].
Proof. vm_compute. reflexivity. Qed.

Example chunks_1_3_17 : chunks 1 3 17 = Ok [(1, 1); (2, 2); (3, 3)].
Proof. vm_compute. reflexivity. Qed.

Example sieveWorker_1_10 : sieveWorker 1 10 [2; 3] [] = Ok [2; 3; 5; 7].
Proof. vm_compute. reflexivity. Qed.

Example main_1_1_8 : main Z.sqrt id 1 1 8 = Ok (Summary [] 0 0 []).
Proof. vm_compute. reflexivity. Qed.

(** * Proofs *)

(** ** Machine integers *)

Lemma wrap32_id x : INT_MIN ≤ x ≤ INT_MAX → wrap32 x = x.
Proof.
  unfold wrap32, wrap, INT_MIN, INT_MAX. intros Hx.
  change (2 ^ (32 - 1)) with 2147483648. change (2 ^ 32) with 4294967296.
  rewrite Z.mod_small; lia.
Qed.

Lemma wrap64_id x : LLONG_MIN ≤ x ≤ LLONG_MAX → wrap64 x = x.
Proof.
  unfold wrap64, wrap, LLONG_MIN, LLONG_MAX. intros Hx.
  change (2 ^ (64 - 1)) with 9223372036854775808.
  change (2 ^ 64) with 18446744073709551616.
  rewrite Z.mod_small; lia.
Qed.

Lemma wrap32_high x :
  INT_MAX < x ≤ 2 * INT_MAX + 1 → wrap32 x = x - 4294967296.
Proof.
  unfold wrap32, wrap, INT_MAX. intros Hx.
  change (2 ^ (32 - 1)) with 2147483648. change (2 ^ 32) with 4294967296.
  replace (x + 2147483648) with (x - 2147483648 + 1 * 4294967296) by lia.
  rewrite Z.mod_add by lia. rewrite Z.mod_small; lia.
Qed.

Lemma wrap32_range x : INT_MIN ≤ wrap32 x ≤ INT_MAX.
Proof.
  unfold wrap32, wrap, INT_MIN, INT_MAX.
  change (2 ^ (32 - 1)) with 2147483648. change (2 ^ 32) with 4294967296.
  pose proof (Z.mod_pos_bound (x + 2147483648) 4294967296). lia.
Qed.

Global Opaque wrap32 wrap64.

(** ** The outcome monad and loops *)

Lemma bind_Ok {A B} (m : outcome A) (k : A → outcome B) b :
  bind m k = Ok b ↔ ∃ a, m = Ok a ∧ k a = Ok b.
Proof.
  destruct m as [a|f]; simpl.
  - split; [eauto | intros (a' & [= <-] & ?); done].
  - split; [done | intros (a' & [=] & _)].
Qed.

Section while_rules.
Context {S : Type} (cond : S → bool) (body : S → outcome S).

(** Total correctness: an invariant and a measure bounded by the fuel. *)
Lemma while_total (Inv : S → Prop) (m : S → nat) :
  (∀ s, Inv s → cond s = true →
        ∃ s', body s = Ok s' ∧ Inv s' ∧ (m s' < m s)%nat) →
  ∀ fuel s, Inv s → (m s ≤ fuel)%nat →
    ∃ s', while fuel cond body s = Ok s' ∧ Inv s' ∧ cond s' = false.
Proof.
  intros Hstep fuel. induction fuel as [|fuel IH]; intros s HI Hm; simpl.
  - destruct (cond s) eqn:Hc; [|eauto].
    destruct (Hstep s HI Hc) as (s' & _ & _ & ?). lia.
  - destruct (cond s) eqn:Hc; [|eauto].
    destruct (Hstep s HI Hc) as (s' & -> & HI' & ?). simpl.
    apply IH; [done | lia].
Qed.

(** Partial correctness: what holds whenever the loop ends normally. *)
Lemma while_partial (Inv : S → Prop) :
  (∀ s s', Inv s → cond s = true → body s = Ok s' → Inv s') →
  ∀ fuel s s', Inv s → while fuel cond body s = Ok s' →
    Inv s' ∧ cond s' = false.
Proof.
  intros Hstep fuel. induction fuel as [|fuel IH]; intros s s' HI; simpl.
  - destruct (cond s) eqn:Hc; [done|]. by intros [= <-].
  - destruct (cond s) eqn:Hc; [|by intros [= <-]].
    intros (s1 & Hb & Hw)%bind_Ok. eauto.
Qed.

(** A loop whose body may stop on the fault [f]. *)
Lemma while_faulty (f : fault) (Inv : S → Prop) (m : S → nat) :
  (∀ s, Inv s → cond s = true →
        (0 < m s)%nat ∧
        (body s = Fault f ∨ ∃ s', body s = Ok s' ∧ Inv s' ∧ (m s' < m s)%nat)) →
  ∀ fuel s, Inv s → (m s ≤ fuel)%nat →
    while fuel cond body s = Fault f ∨
    ∃ s', while fuel cond body s = Ok s' ∧ Inv s' ∧ cond s' = false.
Proof.
  intros Hstep fuel. induction fuel as [|fuel IH]; intros s HI Hm; simpl.
  - destruct (cond s) eqn:Hc; [|eauto].
    destruct (Hstep s HI Hc) as [? _]. lia.
  - destruct (cond s) eqn:Hc; [|eauto].
    destruct (Hstep s HI Hc) as [_ [->|(s' & -> & HI' & ?)]]; [by left|].
    simpl. apply IH; [done|lia].
Qed.

End while_rules.

(** [apply_while Inv m] instantiates [while_total] for the loop of the goal
    with the invariant [Inv] and the measure [m]; it leaves the step, the
    initial state and the fuel to prove, then the goal with [Hloop], the
    final state of the loop. *)
Tactic Notation "apply_while" uconstr(Inv) uconstr(m) :=
  match goal with
  | |- context [while ?fuel ?wc ?wb ?ws] =>
      let Hloop := fresh "Hloop" in
      let Hstep := fresh in
      let Hinit := fresh in
      let Hfuel := fresh in
      pose proof (λ Hstep Hinit Hfuel,
                    while_total wc wb Inv m Hstep fuel ws Hinit Hfuel) as Hloop;
      cbv beta in Hloop;
      match type of Hloop with
      | ?Pstep → ?Pinit → ?Pfuel → _ =>
          assert Pstep as Hstep;
          [| assert Pinit as Hinit;
             [clear Hstep
             | assert Pfuel as Hfuel;
               [clear Hstep Hinit
               | specialize (Hloop Hstep Hinit Hfuel);
                 clear Hstep Hinit Hfuel]]];
          [clear Hloop..|]
      end
  end.

Tactic Notation "apply_while_faulty" constr(f) uconstr(Inv) uconstr(m) :=
  match goal with
  | |- context [while ?fuel ?wc ?wb ?ws] =>
      let Hloop := fresh "Hloop" in
      let Hstep := fresh in
      let Hinit := fresh in
      let Hfuel := fresh in
      pose proof (λ Hstep Hinit Hfuel,
                    while_faulty wc wb f Inv m Hstep fuel ws Hinit Hfuel) as Hloop;
      cbv beta in Hloop;
      match type of Hloop with
      | ?Pstep → ?Pinit → ?Pfuel → _ =>
          assert Pstep as Hstep;
          [| assert Pinit as Hinit;
             [clear Hstep
             | assert Pfuel as Hfuel;
               [clear Hstep Hinit
               | specialize (Hloop Hstep Hinit Hfuel);
                 clear Hstep Hinit Hfuel]]];
          [clear Hloop..|]
      end
  end.

Lemma while_first_fault {S} fuel cond body (s : S) f :
  cond s = true → body s = Fault f → while (Datatypes.S fuel) cond body s = Fault f.
Proof. intros Hc Hb. simpl. by rewrite Hc, Hb. Qed.

(** ** Vectors *)

Lemma vec_set_Ok {A} (v : list A) i x :
  0 ≤ i < Z.of_nat (length v) → vec_set v i x = Ok (<[Z.to_nat i := x]> v).
Proof.
  intros Hi. unfold vec_set.
  destruct (0 <=? i) eqn:H1; [|lia].
  destruct (i <? Z.of_nat (length v)) eqn:H2; [done|lia].
Qed.

Lemma vec_get_Ok {A} (v : list A) i x :
  0 ≤ i → v !! Z.to_nat i = Some x → vec_get v i = Ok x.
Proof.
  intros Hi Hx. unfold vec_get. destruct (i <? 0) eqn:H1; [lia|]. by rewrite Hx.
Qed.

Lemma vec_get_inv {A} (v : list A) i x :
  vec_get v i = Ok x → 0 ≤ i ∧ v !! Z.to_nat i = Some x.
Proof.
  unfold vec_get. destruct (i <? 0) eqn:H1; [done|].
  destruct (v !! Z.to_nat i); [|done]. intros [= ->]. split; [lia|done].
Qed.

Lemma vec_new_Ok {A} n (x : A) :
  0 ≤ n → vec_new n x = Ok (replicate (Z.to_nat n) x).
Proof. intros Hn. unfold vec_new. destruct (n <? 0) eqn:H1; [lia|done]. Qed.

Lemma vec_set_negative {A} (v : list A) i x : i < 0 → vec_set v i x = Fault OutOfBounds.
Proof. intros Hi. unfold vec_set. destruct (0 <=? i) eqn:H0; [lia|done]. Qed.

(** ** Primes and small divisors *)

Lemma prime_small_divisors n :
  Z.prime n ↔ 2 ≤ n ∧ ∀ d, 2 ≤ d → d * d ≤ n → ¬ (d | n).
Proof.
  unfold Z.prime. split.
  - intros [Hn Hp]. split; [lia|].
    intros d Hd Hdd. apply Hp. nia.
  - intros [Hn Hsmall]. split; [lia|].
    intros k Hk [m Hm].
    assert (2 ≤ m) by nia.
    destruct (Z_le_gt_dec (k * k) n) as [Hkk|Hkk].
    + apply (Hsmall k); [lia | done | by exists m].
    + apply (Hsmall m); [lia | nia | exists k; lia].
Qed.

Lemma prime_divisor d : 2 ≤ d → ∃ p, Z.prime p ∧ (p | d).
Proof.
  remember (Z.to_nat d) as n eqn:Hn. revert d Hn.
  induction n as [n IH] using lt_wf_ind. intros d -> Hd.
  destruct (decide (Exists (λ k, (k | d)) (seqZ 2 (d - 2)))) as [He|Hne].
  - apply Exists_exists in He as (k & Hk%elem_of_seqZ & Hkd).
    destruct (IH (Z.to_nat k) ltac:(lia) k eq_refl ltac:(lia)) as (p & Hp & Hpk).
    exists p. split; [done|by etrans].
  - exists d. split; [|done]. split; [lia|]. intros k Hk Hkd.
    apply Hne, Exists_exists. exists k. rewrite elem_of_seqZ. split; [lia|done].
Qed.

Lemma no_divisor_from_sound fuel : ∀ d n,
  2 ≤ d → no_divisor_from fuel d n = true →
  ∀ k, d ≤ k → k * k ≤ n → ¬ (k | n).
Proof.
  induction fuel as [|fuel IH]; intros d n Hd Hnd k Hk Hkk; simpl in Hnd; [done|].
  destruct (n <? d * d) eqn:Hlt; [apply Z.ltb_lt in Hlt; nia|].
  destruct (n mod d =? 0) eqn:Hmod; [done|]. apply Z.eqb_neq in Hmod.
  destruct (decide (k = d)) as [->|].
  - by rewrite <-Z.mod_divide by lia.
  - apply (IH (d + 1) n); [lia|done|lia|done].
Qed.

Lemma prime_2147483659 : Z.prime 2147483659.
Proof.
  apply prime_small_divisors. split; [lia|]. intros d Hd.
  apply (no_divisor_from_sound (Z.to_nat 46342) 2); [lia| |done].
  vm_compute. reflexivity.
Qed.

(** ** [simpleSieve] *)

Lemma mark_multiples_spec limit i v :
  2 ≤ i → i * i ≤ limit → limit < 2147395600 → sieved limit i v →
  ∃ v', mark_multiples limit i v = Ok v' ∧ sieved limit (i + 1) v'.
Proof.
  intros Hi Hii Hlim [Hlen Hv]. unfold mark_multiples.
  assert (i ≤ 46340) by nia.
  apply_while
    (λ '(j, v'), i * i ≤ j ≤ limit + i ∧ (i | j) ∧ length v' = Z.to_nat (limit + 1) ∧
       ∀ k b, 0 ≤ k ≤ limit → v' !! Z.to_nat k = Some b →
         (b = true ↔ (2 ≤ k ∧ ¬ struck_below i k) ∧ ¬ (i * i ≤ k < j ∧ (i | k))))
    (λ '(j, _), Z.to_nat (limit + 1 - j)).
  - intros [j v'] (Hj & Hdiv & Hlen' & Hv') Hc. apply Z.leb_le in Hc.
    rewrite vec_set_Ok by lia. simpl.
    rewrite wrap32_id by (unfold INT_MIN, INT_MAX; lia).
    eexists; split; [done|]. split; [|lia].
    split; [lia|]. split; [by apply Z.divide_add_r, Z.divide_refl|].
    split; [by rewrite length_insert|].
    intros k b Hk. destruct (decide (k = j)) as [->|Hne].
    + rewrite list_lookup_insert_eq by lia. intros [= <-].
      split; [done|]. intros [_ []]. split; [lia|done].
    + rewrite list_lookup_insert_ne by lia. intros Hb.
      rewrite (Hv' k b Hk Hb).
      assert (i * i ≤ k < j + i ∧ (i | k) ↔ i * i ≤ k < j ∧ (i | k)); [|tauto].
      split; [|intros [? ?]; split; [lia|done]].
      intros [Hkj Hik]. split; [|done].
      destruct Hdiv as [a ->], Hik as [c ->].
      assert (c < a + 1) by nia. assert (c ≠ a) by (by intros ->). nia.
  - rewrite wrap32_id by (unfold INT_MIN, INT_MAX; lia).
    split; [lia|]. split; [by apply Z.divide_mul_l, Z.divide_refl|]. split; [done|].
    intros k b Hk Hb. rewrite (Hv k b Hk Hb). split; [|tauto]. intros ?; split; [done|lia].
  - rewrite wrap32_id by (unfold INT_MIN, INT_MAX; lia). lia.
  - destruct Hloop as ([j v'] & -> & (Hj & Hdiv & Hlen' & Hv') & Hc).
    simpl. exists v'. split; [done|]. apply Z.leb_gt in Hc.
    split; [done|]. intros k b Hk Hb. rewrite (Hv' k b Hk Hb).
    unfold struck_below. split.
    + intros [[? Hns] Hnj]. split; [done|]. intros (d & Hd & Hdd & Hdk).
      destruct (decide (d = i)) as [->|]; [apply Hnj; split; [lia|done]|].
      apply Hns. exists d. split; [lia|done].
    + intros [? Hns]. split; [split; [done|]|].
      * intros (d & Hd & ?). apply Hns. exists d. split; [lia|done].
      * intros [? ?]. apply Hns. exists i. split; [lia|]. split; [lia|done].
Qed.

Lemma lookup_is_Some_Z {A} (v : list A) k :
  0 ≤ k < Z.of_nat (length v) → ∃ x, v !! Z.to_nat k = Some x.
Proof. intros Hk. apply lookup_lt_is_Some. lia. Qed.

Lemma sieved_skip limit i v :
  2 ≤ i ≤ limit → sieved limit i v → v !! Z.to_nat i = Some false →
  sieved limit (i + 1) v.
Proof.
  intros Hi [Hlen Hv] Hf. split; [done|]. intros k b Hk Hb.
  rewrite (Hv k b Hk Hb).
  assert (¬ ¬ struck_below i i) as Hnn.
  { intros Hn. pose proof (Hv i false ltac:(lia) Hf) as [_ Hc].
    by specialize (Hc (conj (proj1 Hi) Hn)). }
  split; intros [? Hns]; (split; [done|]).
  - intros (d & Hd & Hdd & Hdk). destruct (decide (d = i)) as [->|].
    + apply Hnn. intros (d0 & Hd0 & Hdd0 & Hdi). apply Hns. exists d0.
      split; [done|]. split; [nia|]. by etrans.
    + apply Hns. exists d. split; [lia|done].
  - intros (d & Hd & ?). apply Hns. exists d. split; [lia|done].
Qed.

Lemma sieve_loop_spec limit v :
  2 ≤ limit < 2147395600 → sieved limit 2 v →
  ∃ v', sieve_loop limit v = Ok v' ∧ length v' = Z.to_nat (limit + 1) ∧
        ∀ k b, 0 ≤ k ≤ limit → v' !! Z.to_nat k = Some b → (b = true ↔ Z.prime k).
Proof.
  intros Hlim Hv. unfold sieve_loop.
  apply_while
    (λ '(i, v'), 2 ≤ i ≤ 46340 ∧ sieved limit i v')
    (λ '(i, _), Z.to_nat (limit + 1 - i)).
  - intros [i v'] [Hi Hv'] Hc.
    rewrite wrap32_id in Hc by (unfold INT_MIN, INT_MAX; nia).
    apply Z.leb_le in Hc. assert (i ≤ 46339) by nia. assert (i ≤ limit) by nia.
    destruct (lookup_is_Some_Z v' i) as [b Hb]; [destruct Hv'; lia|].
    rewrite (vec_get_Ok v' i b) by (lia || done). simpl.
    rewrite wrap32_id by (unfold INT_MIN, INT_MAX; lia).
    destruct b.
    + destruct (mark_multiples_spec limit i v') as (v'' & -> & Hv''); [lia..|done|].
      simpl. eexists; split; [done|]. split; [split; [lia|done]|lia].
    + simpl. eexists; split; [done|].
      split; [split; [lia|apply sieved_skip; [lia|done..]]|lia].
  - done.
  - destruct Hv as [-> _]. lia.
  - destruct Hloop as ([i v'] & -> & [Hi Hv'] & Hc).
    simpl. exists v'. split; [done|]. destruct Hv' as [Hlen Hv']. split; [done|].
    rewrite wrap32_id in Hc by (unfold INT_MIN, INT_MAX; nia). apply Z.leb_gt in Hc.
    intros k b Hk Hb. rewrite (Hv' k b Hk Hb), prime_small_divisors.
    split; intros [? Hns]; (split; [done|]).
    + intros d Hd Hdd Hdk. apply Hns. exists d. split; [nia|done].
    + intros (d & Hd & Hdd & Hdk). by apply (Hns d); [lia|..].
Qed.

Lemma seqZ_snoc m n : 0 ≤ n → seqZ m (n + 1) = seqZ m n ++ [m + n].
Proof. intros Hn. by rewrite seqZ_app by lia. Qed.

Lemma collect_primes_spec limit v :
  1 ≤ limit < INT_MAX → length v = Z.to_nat (limit + 1) →
  collect_primes limit v = Ok (filter (flagged v) (seqZ 2 (limit - 1))).
Proof.
  intros Hlim Hlen. unfold collect_primes.
  apply_while
    (λ '(i, primes), 2 ≤ i ≤ limit + 1 ∧
       primes = filter (flagged v) (seqZ 2 (i - 2)))
    (λ '(i, _), Z.to_nat (limit + 1 - i)).
  - intros [i primes] [Hi ->] Hc. apply Z.leb_le in Hc.
    destruct (lookup_is_Some_Z v i) as [b Hb]; [lia|].
    rewrite (vec_get_Ok v i b) by (lia || done). simpl.
    rewrite wrap32_id by (unfold INT_MIN, INT_MAX in *; lia).
    eexists; split; [done|]. split; [|lia]. split; [lia|].
    replace (i + 1 - 2) with (i - 2 + 1) by lia.
    rewrite seqZ_snoc, filter_app by lia. replace (2 + (i - 2)) with i by lia.
    rewrite filter_cons, filter_nil.
    destruct b; [by rewrite decide_True|rewrite decide_False, app_nil_r; [done|]].
    unfold flagged. by rewrite Hb.
  - split; [lia|done].
  - lia.
  - destruct Hloop as ([i primes] & -> & [Hi ->] & Hc).
    simpl. apply Z.leb_gt in Hc. by replace (i - 2) with (limit - 1) by lia.
Qed.

Lemma StronglySorted_seqZ m n : StronglySorted Z.lt (seqZ m n).
Proof.
  remember (Z.to_nat n) as k eqn:Hk. revert m n Hk.
  induction k as [|k IH]; intros m n Hk.
  - rewrite seqZ_nil by lia. constructor.
  - rewrite seqZ_cons by lia. constructor; [apply IH; lia|].
    apply Forall_forall. intros x Hx%elem_of_seqZ. lia.
Qed.

Lemma StronglySorted_filter {A} (R : relation A) (P : A → Prop)
    `{!∀ x, Decision (P x)} l :
  StronglySorted R l → StronglySorted R (filter P l).
Proof.
  induction 1 as [|x l Hl IH Hx]; [constructor|].
  rewrite filter_cons. destruct (decide (P x)); [|done].
  constructor; [done|]. apply Forall_forall. intros y [_ Hy]%list_elem_of_filter.
  by eapply Forall_forall in Hx.
Qed.

Lemma Sorted_filter_seqZ (P : Z → Prop) `{!∀ x, Decision (P x)} m n :
  Sorted Z.lt (filter P (seqZ m n)).
Proof. apply StronglySorted_Sorted, StronglySorted_filter, StronglySorted_seqZ. Qed.

Lemma sieved_init limit :
  1 ≤ limit →
  sieved limit 2 (<[Z.to_nat 0 := false]> (<[Z.to_nat 1 := false]>
                    (replicate (Z.to_nat (limit + 1)) true))).
Proof.
  intros Hlim. split; [by rewrite !length_insert, length_replicate|].
  intros k b Hk Hb.
  assert (¬ struck_below 2 k) by (intros (d & ? & _); lia).
  destruct (decide (k = 0)) as [->|].
  { rewrite list_lookup_insert_eq in Hb
      by (rewrite length_insert, length_replicate; lia).
    injection Hb as <-. split; [done|lia]. }
  rewrite list_lookup_insert_ne in Hb by lia.
  destruct (decide (k = 1)) as [->|].
  { rewrite list_lookup_insert_eq in Hb by (rewrite length_replicate; lia).
    injection Hb as <-. split; [done|lia]. }
  rewrite list_lookup_insert_ne in Hb by lia.
  apply lookup_replicate in Hb as [-> _]. split; [|done]. intros _. split; [lia|done].
Qed.

Lemma simpleSieve_spec limit :
  2 ≤ limit < 2147395600 →
  ∃ primes, simpleSieve limit = Ok primes ∧ Sorted Z.lt primes ∧
            ∀ p, p ∈ primes ↔ Z.prime p ∧ p ≤ limit.
Proof.
  intros Hlim. unfold simpleSieve.
  rewrite wrap32_id by (unfold INT_MIN, INT_MAX; lia).
  rewrite vec_new_Ok by lia. simpl.
  rewrite vec_set_Ok by (rewrite length_replicate; lia). simpl.
  rewrite vec_set_Ok by (rewrite length_insert, length_replicate; lia). simpl.
  destruct (sieve_loop_spec limit _ Hlim (sieved_init limit ltac:(lia)))
    as (v & -> & Hlen & Hv). simpl.
  rewrite collect_primes_spec by (unfold INT_MAX; done || lia).
  eexists; split; [done|]. split; [apply Sorted_filter_seqZ|].
  intros p. rewrite list_elem_of_filter, elem_of_seqZ. unfold flagged. split.
  - intros [Hp ?]. split; [|lia]. apply (Hv p true); [lia|done..].
  - intros [Hp ?]. pose proof (Z.prime_ge_2 _ Hp).
    split; [|lia]. destruct (lookup_is_Some_Z v p) as [b Hb]; [lia|].
    rewrite Hb. f_equal. apply (Hv p b); [lia|done..].
Qed.

(** *** The limit from which [simpleSieve] leaves [int] *)

(** At any limit below [INT_MAX], marking the multiples of [i] either
    completes, or [j += i] leaves [int] and the next write is out of
    bounds. *)
Lemma mark_multiples_faulty limit i v :
  2 ≤ i ≤ 46340 → i * i ≤ limit → limit < INT_MAX → sieved limit i v →
  mark_multiples limit i v = Fault OutOfBounds ∨
  ∃ v', mark_multiples limit i v = Ok v' ∧ sieved limit (i + 1) v'.
Proof.
  intros Hi Hii Hlim [Hlen Hv]. unfold mark_multiples, INT_MAX in *.
  rewrite (wrap32_id (i * i)) by (unfold INT_MIN, INT_MAX; nia).
  apply_while_faulty OutOfBounds
    (λ '(j, v'), j < 0 ∨
       (i * i ≤ j ∧ (i | j) ∧ length v' = Z.to_nat (limit + 1) ∧
        ∀ k b, 0 ≤ k ≤ limit → v' !! Z.to_nat k = Some b →
          (b = true ↔ (2 ≤ k ∧ ¬ struck_below i k) ∧
                      ¬ (i * i ≤ k < j ∧ (i | k)))))
    (λ '(j, _), if decide (j < 0) then 1%nat
                else (2 + Z.to_nat (limit + 1 - j))%nat).
  - intros [j v'] HI Hc. apply Z.leb_le in Hc.
    split; [case_decide; lia|].
    destruct HI as [Hneg|(Hj & Hdiv & Hlen' & Hv')].
    { left. by rewrite vec_set_negative. }
    right. rewrite vec_set_Ok by lia. simpl. eexists; split; [done|].
    destruct (Z_le_gt_dec (j + i) 2147483647) as [Hfit|Hwrap].
    + rewrite wrap32_id by (unfold INT_MIN, INT_MAX; lia).
      split; [|rewrite !decide_False by lia; lia]. right.
      split; [lia|]. split; [by apply Z.divide_add_r, Z.divide_refl|].
      split; [by rewrite length_insert|].
      intros k b Hk. destruct (decide (k = j)) as [->|Hne].
      * rewrite list_lookup_insert_eq by lia. intros [= <-].
        split; [done|]. intros [_ []]. split; [lia|done].
      * rewrite list_lookup_insert_ne by lia. intros Hb.
        rewrite (Hv' k b Hk Hb).
        assert (i * i ≤ k < j + i ∧ (i | k) ↔ i * i ≤ k < j ∧ (i | k)); [|tauto].
        split; [|intros [? ?]; split; [lia|done]].
        intros [Hkj Hik]. split; [|done].
        destruct Hdiv as [a ->], Hik as [c ->].
        assert (c < a + 1) by nia. assert (c ≠ a) by (by intros ->). nia.
    + rewrite wrap32_high by (unfold INT_MAX; lia).
      split; [left; lia|]. rewrite decide_True by lia. rewrite decide_False by lia. lia.
  - right. split; [lia|]. split; [by apply Z.divide_mul_l, Z.divide_refl|].
    split; [done|]. intros k b Hk Hb. rewrite (Hv k b Hk Hb).
    split; [|tauto]. intros ?; split; [done|lia].
  - rewrite decide_False by nia. nia.
  - destruct Hloop as [->|([j v'] & -> & HI & Hc)]; [by left|].
    right. simpl. exists v'. split; [done|]. apply Z.leb_gt in Hc.
    destruct HI as [?|(Hj & Hdiv & Hlen' & Hv')]; [lia|].
    split; [done|]. intros k b Hk Hb. rewrite (Hv' k b Hk Hb).
    unfold struck_below. split.
    + intros [[? Hns] Hnj]. split; [done|]. intros (d & Hd & Hdd & Hdk).
      destruct (decide (d = i)) as [->|]; [apply Hnj; split; [lia|done]|].
      apply Hns. exists d. split; [lia|done].
    + intros [? Hns]. split; [split; [done|]|].
      * intros (d & Hd & ?). apply Hns. exists d. split; [lia|done].
      * intros [? ?]. apply Hns. exists i. split; [lia|]. split; [lia|done].
Qed.

Lemma prime_46349 : Z.prime 46349.
Proof.
  apply prime_small_divisors. split; [lia|]. intros d Hd.
  apply (no_divisor_from_sound (Z.to_nat 300) 2); [lia| |done].
  vm_compute. reflexivity.
Qed.

Lemma struck_46341_to_46348 i : 46341 ≤ i ≤ 46348 → struck_below i i.
Proof.
  intros Hi.
  assert (i = 46341 ∨ i = 46342 ∨ i = 46343 ∨ i = 46344 ∨ i = 46345 ∨
          i = 46346 ∨ i = 46347 ∨ i = 46348) as Hcases by lia.
  destruct Hcases as [->|[->|[->|[->|[->|[->|[->| ->]]]]]]].
  - exists 3. split; [lia|]. split; [lia|]. by exists 15447.
  - exists 2. split; [lia|]. split; [lia|]. by exists 23171.
  - exists 11. split; [lia|]. split; [lia|]. by exists 4213.
  - exists 2. split; [lia|]. split; [lia|]. by exists 23172.
  - exists 5. split; [lia|]. split; [lia|]. by exists 9269.
  - exists 2. split; [lia|]. split; [lia|]. by exists 23173.
  - exists 3. split; [lia|]. split; [lia|]. by exists 15449.
  - exists 2. split; [lia|]. split; [lia|]. by exists 23174.
Qed.

Lemma wrap32_square_negative i : 46341 ≤ i ≤ 46349 → wrap32 (i * i) < 0.
Proof. intros Hi. rewrite wrap32_high by (unfold INT_MAX; nia). nia. Qed.

(** From [limit = 46340 * 46340] on, the test [i * i <= limit] leaves
    [int] at [i = 46341] and stays true; at the prime 46349 the marking
    starts at a negative [j]. *)
Lemma sieve_loop_faults limit v :
  2147395600 ≤ limit < INT_MAX → sieved limit 2 v →
  sieve_loop limit v = Fault OutOfBounds.
Proof.
  intros Hlim Hv. unfold sieve_loop, INT_MAX in *.
  apply_while_faulty OutOfBounds
    (λ '(i, v'), 2 ≤ i ≤ 46349 ∧ sieved limit i v')
    (λ '(i, _), Z.to_nat (46350 - i)).
  - intros [i v'] [Hi Hv'] _. split; [lia|].
    destruct (lookup_is_Some_Z v' i) as [b Hb]; [destruct Hv'; lia|].
    rewrite (vec_get_Ok v' i b) by (lia || done). simpl.
    rewrite (wrap32_id (i + 1)) by (unfold INT_MIN, INT_MAX; lia).
    pose proof (proj2 Hv' i b ltac:(lia) Hb) as Hflag.
    destruct b.
    + destruct (Z_le_gt_dec i 46340) as [Hsmall|Hbig].
      * destruct (mark_multiples_faulty limit i v') as [->|(v'' & -> & Hv'')];
          [lia|nia|unfold INT_MAX; lia|done|by left|].
        right. simpl. eexists; split; [done|]. split; [|lia]. split; [lia|done].
      * left. destruct (decide (i = 46349)) as [->|].
        -- unfold mark_multiples.
           change (wrap32 (46349 * 46349)) with (-2146737495).
           destruct (length v') eqn:Hl; [destruct Hv'; lia|].
           rewrite (while_first_fault _ _ _ _ OutOfBounds); [done|simpl; lia|].
           cbv beta iota. by rewrite vec_set_negative.
        -- exfalso. apply Hflag; [done|]. apply struck_46341_to_46348. lia.
    + right. simpl. eexists; split; [done|]. split; [|lia].
      assert (i ≠ 46349).
      { intros ->. assert (false = true); [|done]. apply Hflag.
        split; [lia|]. intros (d & Hd & Hdd & Hdk).
        pose proof prime_46349 as [_ Hp]%prime_small_divisors.
        by apply (Hp d); [lia|..]. }
      split; [lia|]. apply sieved_skip; [lia|done..].
  - split; [lia|done].
  - destruct Hv as [-> _]. lia.
  - destruct Hloop as [->|([i v'] & _ & [Hi _] & Hc)]; [done|]. exfalso.
    apply Z.leb_gt in Hc. destruct (Z_le_gt_dec i 46340).
    + rewrite wrap32_id in Hc by (unfold INT_MIN, INT_MAX; nia). nia.
    + pose proof (wrap32_square_negative i). lia.
Qed.

(** [simpleSieve] gives no result from [limit = 46340 * 46340] on. *)
Lemma simpleSieve_faults limit :
  2147395600 ≤ limit ≤ INT_MAX →
  simpleSieve limit = Fault (if decide (limit = INT_MAX) then LengthError
                             else OutOfBounds).
Proof.
  intros Hlim. case_decide as Hmax; [subst; by vm_compute|].
  unfold simpleSieve, INT_MAX in *.
  rewrite wrap32_id by (unfold INT_MIN, INT_MAX; lia).
  rewrite vec_new_Ok by lia. simpl.
  rewrite vec_set_Ok by (rewrite length_replicate; lia). simpl.
  rewrite vec_set_Ok by (rewrite length_insert, length_replicate; lia). simpl.
  rewrite sieve_loop_faults; [done|unfold INT_MAX; lia|]. apply sieved_init. lia.
Qed.


(** ** [sieveWorker] *)

Lemma struck_snoc ps p n : struck (ps ++ [p]) n ↔ struck ps n ∨ (p * p ≤ n ∧ (p | n)).
Proof. unfold struck. rewrite Exists_app, Exists_cons, Exists_nil. tauto. Qed.

Lemma firstMultiple_spec start end_ p :
  LLONG_MIN ≤ start ≤ end_ → applicable end_ p →
  let f := firstMultiple start p in
  (p | f) ∧ p * p ≤ f ∧ start ≤ f ≤ LLONG_MAX ∧
  ∀ k, start ≤ k → p * p ≤ k → (p | k) → f ≤ k.
Proof.
  intros Hs [Hp Hep]. unfold INT_MAX, LLONG_MIN, LLONG_MAX in *. unfold firstMultiple.
  rewrite (wrap64_id (p * p)) by (unfold LLONG_MIN, LLONG_MAX; nia).
  rewrite (wrap64_id (start + p)) by (unfold LLONG_MIN, LLONG_MAX; lia).
  rewrite (wrap64_id (start + p - 1)) by (unfold LLONG_MIN, LLONG_MAX; lia).
  set (a := start + p - 1).
  assert (a = p * Z.quot a p + Z.rem a p ∧ (0 ≤ a → 0 ≤ Z.rem a p < p) ∧
          (a ≤ 0 → - p < Z.rem a p ≤ 0)) as (Hqr & Hpos & Hneg)
    by (Z.quot_rem_to_equations; lia).
  set (q := Z.quot a p) in *. set (r := Z.rem a p) in *.
  rewrite (wrap64_id q) by (unfold LLONG_MIN, LLONG_MAX; nia).
  rewrite (wrap64_id (q * p)) by (unfold LLONG_MIN, LLONG_MAX; nia).
  split; [|split; [lia|split; [nia|]]].
  - destruct (Z.max_spec (p * p) (q * p)) as [[_ ->]|[_ ->]];
      apply Z.divide_mul_r, Z.divide_refl.
  - intros k Hk Hpk [c ->].
    apply Z.max_lub; [done|].
    destruct (Z_le_gt_dec 0 a); [|nia].
    assert (q < c + 1) by nia. nia.
Qed.

Lemma firstMultiple_formula start end_ p :
  1 ≤ start ≤ end_ → applicable end_ p →
  firstMultiple start p = Z.max (p * p) ((start + p - 1) / p * p).
Proof.
  intros Hs [Hp Hep]. unfold INT_MAX, LLONG_MAX in *. unfold firstMultiple.
  rewrite (wrap64_id (p * p)) by (unfold LLONG_MIN, LLONG_MAX; nia).
  rewrite (wrap64_id (start + p)) by (unfold LLONG_MIN, LLONG_MAX; lia).
  rewrite (wrap64_id (start + p - 1)) by (unfold LLONG_MIN, LLONG_MAX; lia).
  rewrite Z.quot_div_nonneg by lia.
  assert (0 ≤ (start + p - 1) / p * p ≤ start + p - 1)
    by (Z.div_mod_to_equations; nia).
  rewrite (wrap64_id ((start + p - 1) / p))
    by (unfold LLONG_MIN, LLONG_MAX; Z.div_mod_to_equations; nia).
  by rewrite wrap64_id by (unfold LLONG_MIN, LLONG_MAX; lia).
Qed.

(** The marking loop of one base prime clears exactly the multiples of [p]
    from [firstMultiple] up to [end_]. *)
Lemma mark_prime_effect start end_ v p :
  LLONG_MIN ≤ start ≤ end_ → end_ - start < LLONG_MAX → applicable end_ p →
  length v = Z.to_nat (end_ - start + 1) →
  ∃ v', mark_prime start end_ v p = Ok v' ∧ length v' = length v ∧
        ∀ k, start ≤ k ≤ end_ →
          v' !! Z.to_nat (k - start) =
          if decide (firstMultiple start p ≤ k ∧ (p | k)) then Some false
          else v !! Z.to_nat (k - start).
Proof.
  intros Hs Hsize Hp Hlen.
  destruct (firstMultiple_spec start end_ p Hs Hp) as (Hpf & Hppf & Hf & Hmin).
  destruct Hp as [Hp Hep]. unfold mark_prime.
  destruct (p =? 0) eqn:Hp0; [lia|]. clear Hp0.
  set (f := firstMultiple start p) in *.
  apply_while
    (λ '(j, v'), (p | j) ∧ f ≤ j ≤ LLONG_MAX ∧ length v' = length v ∧
       ∀ k, start ≤ k ≤ end_ →
         v' !! Z.to_nat (k - start) =
         if decide (f ≤ k < j ∧ (p | k)) then Some false
         else v !! Z.to_nat (k - start))
    (λ '(j, _), Z.to_nat (end_ + 1 - j)).
  - intros [j v'] (Hpj & Hj & Hlen' & Hv') Hc. apply Z.leb_le in Hc.
    unfold LLONG_MIN, LLONG_MAX in *.
    rewrite (wrap64_id (j - start)) by (unfold LLONG_MIN, LLONG_MAX; lia).
    rewrite vec_set_Ok by lia. simpl.
    rewrite wrap64_id by (unfold LLONG_MIN, LLONG_MAX; lia).
    eexists; split; [done|]. split; [|simpl; lia].
    split; [by apply Z.divide_add_r, Z.divide_refl|]. split; [lia|].
    split; [by rewrite length_insert|].
    intros k Hk. destruct (decide (k = j)) as [->|Hne].
    + rewrite list_lookup_insert_eq by lia. rewrite decide_True; [done|].
      split; [lia|done].
    + rewrite list_lookup_insert_ne by lia. rewrite (Hv' k Hk).
      apply decide_ext. split; [intros [? ?]; split; [lia|done]|].
      intros [Hkj Hpk]. split; [|done].
      destruct Hpj as [a ->], Hpk as [c ->].
      assert (c < a + 1) by nia. assert (c ≠ a) by (by intros ->). nia.
  - split; [done|]. split; [lia|]. split; [done|].
    intros k Hk. rewrite decide_False; [done|]. lia.
  - simpl. lia.
  - destruct Hloop as ([j v'] & -> & (Hpj & Hj & Hlen' & Hv') & Hc).
    simpl. exists v'. split; [done|]. split; [done|]. apply Z.leb_gt in Hc.
    intros k Hk. rewrite (Hv' k Hk). apply decide_ext.
    split; [tauto|]. intros [? ?]. split; [lia|done].
Qed.

Lemma mark_prime_spec start end_ ps v p :
  LLONG_MIN ≤ start ≤ end_ → end_ - start < LLONG_MAX → applicable end_ p →
  marked start end_ ps v →
  ∃ v', mark_prime start end_ v p = Ok v' ∧ marked start end_ (ps ++ [p]) v'.
Proof.
  intros Hs Hsize Hp [Hlen Hv].
  destruct (mark_prime_effect start end_ v p) as (v' & -> & Hlen' & Hv'); [done..|].
  destruct (firstMultiple_spec start end_ p Hs Hp) as (Hpf & Hppf & Hf & Hmin).
  exists v'. split; [done|]. split; [congruence|].
  intros k b Hk. rewrite (Hv' k Hk), struck_snoc. case_decide as Hd.
  - intros [= <-]. split; [done|]. intros []. right. split; [lia|tauto].
  - intros Hb. rewrite (Hv k b Hk Hb). split; [|tauto].
    intros Hns [?|[? ?]]; [done|]. apply Hd. split; [|done]. apply Hmin; [lia|done..].
Qed.

Lemma marked_init start end_ :
  start ≤ end_ →
  marked start end_ [] (replicate (Z.to_nat (end_ - start + 1)) true).
Proof.
  intros Hs. split; [by rewrite length_replicate|].
  intros k b Hk [-> _]%lookup_replicate. split; [|done].
  intros _ Hs'. by apply Exists_nil in Hs'.
Qed.

Lemma foldM_mark_prime start end_ ps2 : ∀ ps1 v,
  LLONG_MIN ≤ start ≤ end_ → end_ - start < LLONG_MAX →
  Forall (applicable end_) ps2 → marked start end_ ps1 v →
  ∃ v', foldM (mark_prime start end_) ps2 v = Ok v' ∧
        marked start end_ (ps1 ++ ps2) v'.
Proof.
  induction ps2 as [|p ps2 IH]; intros ps1 v Hs Hsize Hps Hv; simpl.
  - exists v. by rewrite app_nil_r.
  - apply Forall_cons in Hps as [Hp Hps].
    destruct (mark_prime_spec start end_ ps1 v p) as (v1 & -> & Hv1); [done..|].
    simpl. destruct (IH (ps1 ++ [p]) v1) as (v' & -> & Hv'); [done..|].
    exists v'. by rewrite <-app_assoc in Hv'.
Qed.

Lemma mark_composites_spec start end_ ps :
  LLONG_MIN ≤ start ≤ end_ → end_ - start < LLONG_MAX →
  Forall (applicable end_) ps →
  ∃ v, mark_composites start end_ ps = Ok v ∧ marked start end_ ps v.
Proof.
  intros Hs Hsize Hps. unfold mark_composites.
  unfold LLONG_MIN, LLONG_MAX in *.
  rewrite (wrap64_id (end_ - start)) by (unfold LLONG_MIN, LLONG_MAX; lia).
  rewrite wrap64_id by (unfold LLONG_MIN, LLONG_MAX; lia).
  rewrite vec_new_Ok by lia. simpl.
  apply (foldM_mark_prime start end_ ps []); [done..|].
  apply marked_init; lia.
Qed.

Lemma filter_iff_elem_of {A} (P Q : A → Prop)
    `{!∀ x, Decision (P x), !∀ x, Decision (Q x)} (l : list A) :
  (∀ x, x ∈ l → P x ↔ Q x) → filter P l = filter Q l.
Proof.
  induction l as [|x l IH]; intros HPQ; [done|].
  rewrite !filter_cons.
  rewrite IH by (intros y Hy; apply HPQ; by right).
  apply decide_ext, HPQ. by left.
Qed.

Lemma collect_segment_spec start end_ v :
  LLONG_MIN ≤ start ≤ end_ → end_ < LLONG_MAX → end_ - start < LLONG_MAX →
  length v = Z.to_nat (end_ - start + 1) →
  collect_segment start end_ v =
  Ok (filter (λ k, 1 < k ∧ v !! Z.to_nat (k - start) = Some true)
             (seqZ start (end_ - start + 1))).
Proof.
  intros Hs He Hsize Hlen. unfold collect_segment.
  set (P := λ k, 1 < k ∧ v !! Z.to_nat (k - start) = Some true).
  apply_while
    (λ '(i, localPrimes), start ≤ i ≤ end_ + 1 ∧
       localPrimes = filter P (seqZ start (i - start)))
    (λ '(i, _), Z.to_nat (end_ + 1 - i)).
  - intros [i localPrimes] [Hi ->] Hc. apply Z.leb_le in Hc.
    unfold LLONG_MIN, LLONG_MAX in *.
    rewrite (wrap64_id (i - start)) by (unfold LLONG_MIN, LLONG_MAX; lia).
    rewrite (wrap64_id (i + 1)) by (unfold LLONG_MIN, LLONG_MAX; lia).
    destruct (lookup_is_Some_Z v (i - start)) as [b Hb]; [lia|].
    assert (filter P (seqZ start (i + 1 - start)) =
            filter P (seqZ start (i - start)) ++ (if decide (P i) then [i] else []))
      as Hsnoc.
    { replace (i + 1 - start) with (i - start + 1) by lia.
      rewrite seqZ_snoc, filter_app by lia.
      replace (start + (i - start)) with i by lia.
      by rewrite filter_cons, filter_nil. }
    destruct (1 <? i) eqn:H1.
    + rewrite (vec_get_Ok v (i - start) b) by (lia || done). simpl.
      eexists; split; [done|]. split; [|lia]. split; [lia|]. rewrite Hsnoc.
      destruct b; [rewrite decide_True; [done|split; [lia|done]]|].
      rewrite decide_False, app_nil_r; [done|]. intros [_ ?]. congruence.
    + simpl. eexists; split; [done|]. split; [|lia]. split; [lia|]. rewrite Hsnoc.
      rewrite decide_False, app_nil_r; [done|]. intros [? _]. lia.
  - split; [lia|]. by rewrite Z.sub_diag.
  - lia.
  - destruct Hloop as ([i localPrimes] & -> & [Hi ->] & Hc). simpl.
    apply Z.leb_gt in Hc. by replace (i - start) with (end_ - start + 1) by lia.
Qed.

Lemma sieveWorker_spec start end_ ps result :
  LLONG_MIN ≤ start ≤ end_ → end_ < LLONG_MAX → end_ - start < LLONG_MAX →
  Forall (applicable end_) ps →
  sieveWorker start end_ ps result = Ok (result ++ segment ps start end_).
Proof.
  intros Hs He Hsize Hps. unfold sieveWorker.
  destruct (mark_composites_spec start end_ ps) as (v & -> & Hlen & Hv); [done..|].
  simpl. rewrite collect_segment_spec by done. simpl.
  do 2 f_equal. apply filter_iff_elem_of. intros k Hk%elem_of_seqZ. unfold kept.
  destruct (lookup_is_Some_Z v (k - start)) as [b Hb]; [lia|].
  rewrite Hb, <-(Hv k b) by (lia || done). split; intros [? ?]; split; congruence.
Qed.

(** ** Partition and merge *)

Lemma chunk_size_spec start end_ numThreads :
  LLONG_MIN ≤ start ≤ end_ → 1 ≤ numThreads ≤ INT_MAX →
  end_ - start + 1 + numThreads ≤ LLONG_MAX →
  chunk_size start end_ numThreads =
  Ok ((end_ - start + 1 + numThreads - 1) / numThreads).
Proof.
  intros Hs Hw Hsize. unfold chunk_size, LLONG_MIN, LLONG_MAX, INT_MAX in *.
  destruct (numThreads =? 0) eqn:H0; [lia|].
  rewrite (wrap64_id (end_ - start)) by (unfold LLONG_MIN, LLONG_MAX; lia).
  rewrite (wrap64_id (end_ - start + 1)) by (unfold LLONG_MIN, LLONG_MAX; lia).
  rewrite (wrap64_id (end_ - start + 1 + numThreads))
    by (unfold LLONG_MIN, LLONG_MAX; lia).
  rewrite (wrap64_id (end_ - start + 1 + numThreads - 1))
    by (unfold LLONG_MIN, LLONG_MAX; lia).
  rewrite Z.quot_div_nonneg by lia.
  rewrite wrap64_id; [done|]. unfold LLONG_MIN, LLONG_MAX.
  split; [apply Z.le_trans with 0; [lia|apply Z.div_pos; lia]|].
  apply Z.le_trans with (end_ - start + 1 + numThreads - 1); [|lia].
  apply Z.div_le_upper_bound; nia.
Qed.

Lemma launch_spec start end_ numThreads chunkSize :
  LLONG_MIN ≤ start ≤ end_ → 1 ≤ numThreads ≤ INT_MAX → 1 ≤ chunkSize →
  numThreads * chunkSize ≤ LLONG_MAX →
  end_ < start + numThreads * chunkSize ≤ LLONG_MAX →
  ∃ n, 1 ≤ n ≤ numThreads ∧
       start + (n - 1) * chunkSize ≤ end_ < start + n * chunkSize ∧
       launch start end_ numThreads chunkSize =
       Ok (chunk_of start end_ chunkSize <$> seqZ 0 n).
Proof.
  intros Hs Hw Hc Hfit Hcover. unfold launch.
  apply_while
    (λ '(i, stop, threads), 0 ≤ i ≤ numThreads ∧
       threads = chunk_of start end_ chunkSize <$> seqZ 0 i ∧
       (i = 0 ∨ start + (i - 1) * chunkSize ≤ end_) ∧
       ((stop : bool) = true → end_ < start + i * chunkSize))
    (λ '(i, stop, _), if stop : bool then 0%nat else Z.to_nat (numThreads - i)).
  - intros [[i stop] threads] (Hi & -> & Hprev & Hstop) Hcond.
    apply andb_true_iff in Hcond as [->%negb_true_iff Hlt%Z.ltb_lt].
    unfold LLONG_MIN, LLONG_MAX, INT_MAX in *.
    assert (0 ≤ i * chunkSize ∧ (i + 1) * chunkSize ≤ numThreads * chunkSize)
      as [? ?] by nia.
    rewrite (wrap64_id (i * chunkSize)) by (unfold LLONG_MIN, LLONG_MAX; lia).
    rewrite (wrap64_id (start + i * chunkSize)) by (unfold LLONG_MIN, LLONG_MAX; lia).
    rewrite (wrap64_id (start + i * chunkSize + chunkSize))
      by (unfold LLONG_MIN, LLONG_MAX; lia).
    rewrite (wrap64_id (start + i * chunkSize + chunkSize - 1))
      by (unfold LLONG_MIN, LLONG_MAX; lia).
    rewrite (wrap32_id (i + 1)) by (unfold INT_MIN, INT_MAX; lia).
    destruct (start + i * chunkSize >? end_) eqn:Hgt.
    + eexists; split; [done|]. split; [|simpl; lia].
      split; [lia|]. split; [done|]. split; [done|]. lia.
    + eexists; split; [done|]. split; [|simpl; lia].
      split; [lia|]. split; [|split; [right|done]].
      * by rewrite seqZ_snoc, fmap_app by lia.
      * replace (i + 1 - 1) with i by lia. lia.
  - split; [lia|]. split; [done|]. split; [by left|done].
  - simpl. lia.
  - destruct Hloop as ([[i stop] threads] & -> & HI & Hexit).
    destruct HI as (Hi & -> & Hprev & Hstop). simpl.
    exists i. apply andb_false_iff in Hexit.
    assert (end_ < start + i * chunkSize) as Hend.
    { destruct Hexit as [Hx|Hx]; [apply Hstop; by destruct stop|].
      apply Z.ltb_ge in Hx. replace i with numThreads by lia. lia. }
    assert (i ≠ 0) by (intros ->; lia).
    split; [lia|]. split; [|done]. split; [|done]. by destruct Hprev.
Qed.

Lemma ceil_div_bounds r w :
  1 ≤ r → 1 ≤ w → let c := (r + w - 1) / w in w * (c - 1) < r ≤ w * c.
Proof. intros Hr Hw c. subst c. Z.div_mod_to_equations. nia. Qed.

Lemma chunks_spec start end_ numThreads :
  LLONG_MIN ≤ start ≤ end_ → 1 ≤ numThreads ≤ INT_MAX →
  end_ + numThreads ≤ LLONG_MAX → end_ - start + 1 + numThreads ≤ LLONG_MAX →
  let chunkSize := (end_ - start + 1 + numThreads - 1) / numThreads in
  ∃ n, 1 ≤ n ≤ numThreads ∧
       start + (n - 1) * chunkSize ≤ end_ < start + n * chunkSize ∧
       chunks start end_ numThreads = Ok (chunk_of start end_ chunkSize <$> seqZ 0 n).
Proof.
  intros Hs Hw Hsize Hrange chunkSize. unfold chunks.
  rewrite chunk_size_spec by lia. simpl. fold chunkSize.
  pose proof (ceil_div_bounds (end_ - start + 1) numThreads ltac:(lia) ltac:(lia)) as Hc.
  simpl in Hc. fold chunkSize in Hc.
  apply launch_spec; [done..|nia|nia|nia].
Qed.

Lemma tiles_chunks start end_ chunkSize (m : nat) : ∀ k,
  1 ≤ chunkSize → 0 ≤ k →
  start + (k + Z.of_nat m) * chunkSize ≤ end_ <
    start + (k + Z.of_nat m + 1) * chunkSize →
  tiles (start + k * chunkSize)
        (chunk_of start end_ chunkSize <$> seqZ k (Z.of_nat m + 1)) end_.
Proof.
  induction m as [|m IH]; intros k Hc Hk Hend.
  - simpl. split; [done|]. rewrite Z.min_l by lia. lia.
  - rewrite seqZ_cons by lia. rewrite fmap_cons. unfold chunk_of at 1.
    cbn [tiles]. split; [done|]. rewrite Z.min_r by nia. split; [nia|].
    replace (Z.pred (Z.of_nat (S m) + 1)) with (Z.of_nat m + 1) by lia.
    replace (start + k * chunkSize + chunkSize - 1 + 1)
      with (start + Z.succ k * chunkSize) by lia.
    apply IH; [done|lia|]. lia.
Qed.

(** The launched chunks of a range that may start at or below zero. *)
Lemma chunks_layout start end_ numThreads :
  LLONG_MIN ≤ start ≤ end_ → 1 ≤ numThreads ≤ INT_MAX →
  end_ + numThreads ≤ LLONG_MAX → end_ - start + 1 + numThreads ≤ LLONG_MAX →
  let chunkSize := (end_ - start + 1 + numThreads - 1) / numThreads in
  ∃ n, 1 ≤ n ≤ numThreads ∧
       start + (n - 1) * chunkSize ≤ end_ < start + n * chunkSize ∧
       chunks start end_ numThreads = Ok (chunk_of start end_ chunkSize <$> seqZ 0 n) ∧
       tiles start (chunk_of start end_ chunkSize <$> seqZ 0 n) end_.
Proof.
  intros Hs Hw Hsize Hrange chunkSize.
  destruct (chunks_spec start end_ numThreads) as (n & Hn & Hend & Hl); [done..|].
  fold chunkSize in Hend, Hl.
  exists n. split; [done|]. split; [done|]. split; [done|].
  assert (1 ≤ chunkSize) by nia.
  pose proof (tiles_chunks start end_ chunkSize (Z.to_nat (n - 1)) 0) as Ht.
  rewrite Z.mul_0_l, Z.add_0_r in Ht.
  replace (Z.of_nat (Z.to_nat (n - 1)) + 1) with n in Ht by lia.
  apply Ht; [done..|]. replace (0 + Z.of_nat (Z.to_nat (n - 1))) with (n - 1) by lia.
  by replace (n - 1 + 1) with n by lia.
Qed.

Lemma chunks_formula start end_ numThreads :
  1 ≤ start ≤ end_ → 1 ≤ numThreads ≤ INT_MAX → end_ + numThreads ≤ LLONG_MAX →
  let chunkSize := (end_ - start + 1 + numThreads - 1) / numThreads in
  ∃ n, 1 ≤ n ≤ numThreads ∧
       start + (n - 1) * chunkSize ≤ end_ < start + n * chunkSize ∧
       chunks start end_ numThreads = Ok (chunk_of start end_ chunkSize <$> seqZ 0 n) ∧
       tiles start (chunk_of start end_ chunkSize <$> seqZ 0 n) end_.
Proof.
  intros Hs Hw Hsize. apply chunks_layout; [unfold LLONG_MIN|..]; lia.
Qed.

Lemma chunks_tiles start end_ numThreads :
  LLONG_MIN ≤ start ≤ end_ → 1 ≤ numThreads ≤ INT_MAX →
  end_ + numThreads ≤ LLONG_MAX → end_ - start + 1 + numThreads ≤ LLONG_MAX →
  ∃ l, chunks start end_ numThreads = Ok l ∧ tiles start l end_.
Proof.
  intros Hs Hw Hsize Hrange.
  destruct (chunks_layout start end_ numThreads) as (n & _ & _ & -> & Ht); eauto.
Qed.

Lemma tiles_bounds a l b chunkStart chunkEnd :
  tiles a l b → (chunkStart, chunkEnd) ∈ l → a ≤ chunkStart ≤ chunkEnd ∧ chunkEnd ≤ b.
Proof.
  revert a. induction l as [|[cs ce] l IH]; intros a Ht Hin.
  - by apply elem_of_nil in Hin.
  - destruct Ht as (-> & Hce & Ht). apply elem_of_cons in Hin as [[= -> ->]|Hin].
    + lia.
    + specialize (IH _ Ht Hin). lia.
Qed.

Lemma tiles_le a l b : tiles a l b → a ≤ b + 1.
Proof.
  revert a. induction l as [|[cs ce] l IH]; intros a Ht; simpl in Ht; [lia|].
  destruct Ht as (-> & Hce & Ht). apply IH in Ht. lia.
Qed.

Lemma tiles_segments ps a l b :
  tiles a l b → l ≫= (λ '(chunkStart, chunkEnd), segment ps chunkStart chunkEnd)
                = segment ps a b.
Proof.
  revert a. induction l as [|[cs ce] l IH]; intros a Ht; simpl in Ht.
  - subst a. unfold segment. by rewrite seqZ_nil by lia.
  - destruct Ht as (-> & Hce & Ht). pose proof (tiles_le _ _ _ Ht).
    rewrite bind_cons, (IH _ Ht). unfold segment.
    rewrite <-filter_app. f_equal.
    replace (b - a + 1) with ((ce - a + 1) + (b - (ce + 1) + 1)) by lia.
    rewrite (seqZ_app a (ce - a + 1) (b - (ce + 1) + 1)) by lia.
    by replace (a + (ce - a + 1)) with (ce + 1) by lia.
Qed.

Lemma applicable_le end_ end' p : end' ≤ end_ → applicable end_ p → applicable end' p.
Proof. unfold applicable. lia. Qed.

Lemma foldM_workers ps order : ∀ result,
  (∀ chunkStart chunkEnd, (chunkStart, chunkEnd) ∈ order →
     LLONG_MIN ≤ chunkStart ≤ chunkEnd ∧ chunkEnd < LLONG_MAX ∧
     chunkEnd - chunkStart < LLONG_MAX ∧ Forall (applicable chunkEnd) ps) →
  foldM (λ finalPrimes '(chunkStart, chunkEnd),
           sieveWorker chunkStart chunkEnd ps finalPrimes) order result =
  Ok (result ++ (order ≫= λ '(chunkStart, chunkEnd), segment ps chunkStart chunkEnd)).
Proof.
  induction order as [|[cs ce] order IH]; intros result Hok; simpl.
  - by rewrite app_nil_r.
  - destruct (Hok cs ce) as (? & ? & ? & ?); [by left|].
    rewrite sieveWorker_spec by done. simpl.
    rewrite IH by (intros; apply Hok; by right).
    by rewrite app_assoc.
Qed.

(** The shared vector after the join: the chunks' results, concatenated in
    the order in which the workers took the lock. *)
Lemma run_workers_order sched start end_ numThreads ps :
  fair sched → LLONG_MIN ≤ start ≤ end_ → 1 ≤ numThreads ≤ INT_MAX →
  end_ + numThreads ≤ LLONG_MAX → end_ - start + 1 + numThreads ≤ LLONG_MAX →
  Forall (applicable end_) ps →
  ∃ l, chunks start end_ numThreads = Ok l ∧ tiles start l end_ ∧
       run_workers sched start end_ numThreads ps =
       Ok (sched l ≫= λ '(chunkStart, chunkEnd), segment ps chunkStart chunkEnd).
Proof.
  intros Hfair Hs Hw Hsize Hrange Hps. unfold run_workers.
  destruct (chunks_tiles start end_ numThreads) as (l & Hl & Ht); [done..|].
  exists l. split; [done|]. split; [done|]. rewrite Hl. simpl.
  rewrite foldM_workers; [done|].
  intros cs ce Hin. rewrite (Hfair l) in Hin.
  destruct (tiles_bounds _ _ _ _ _ Ht Hin). unfold LLONG_MIN, LLONG_MAX, INT_MAX in *.
  split; [lia|]. split; [lia|]. split; [lia|].
  eapply Forall_impl; [done|]. intros p. apply applicable_le. lia.
Qed.

Lemma run_workers_permutation sched start end_ numThreads ps :
  fair sched → LLONG_MIN ≤ start ≤ end_ → 1 ≤ numThreads ≤ INT_MAX →
  end_ + numThreads ≤ LLONG_MAX → end_ - start + 1 + numThreads ≤ LLONG_MAX →
  Forall (applicable end_) ps →
  ∃ finalPrimes, run_workers sched start end_ numThreads ps = Ok finalPrimes ∧
                 finalPrimes ≡ₚ segment ps start end_.
Proof.
  intros Hfair Hs Hw Hsize Hrange Hps.
  destruct (run_workers_order sched start end_ numThreads ps)
    as (l & _ & Ht & ->); [done..|].
  eexists; split; [done|]. by rewrite (Hfair l), (tiles_segments ps _ _ _ Ht).
Qed.

Lemma run_workers_spec sched start end_ numThreads ps :
  fair sched → 1 ≤ start ≤ end_ → 1 ≤ numThreads ≤ INT_MAX →
  end_ + numThreads ≤ LLONG_MAX → Forall (applicable end_) ps →
  ∃ finalPrimes, run_workers sched start end_ numThreads ps = Ok finalPrimes ∧
                 finalPrimes ≡ₚ segment ps start end_.
Proof.
  intros Hfair Hs Hw Hsize Hps.
  apply run_workers_permutation; [done|unfold LLONG_MIN; lia|done|done|lia|done].
Qed.

Lemma StronglySorted_impl {A} (R1 R2 : relation A) l :
  (∀ x y, R1 x y → R2 x y) → StronglySorted R1 l → StronglySorted R2 l.
Proof.
  intros HR. induction 1 as [|x l Hl IH Hx]; constructor; [done|].
  eapply Forall_impl; [done|]. auto.
Qed.

Lemma Sorted_lt_segment ps a b : Sorted Z.lt (segment ps a b).
Proof. apply Sorted_filter_seqZ. Qed.

Lemma Sorted_le_segment ps a b : Sorted Z.le (segment ps a b).
Proof.
  apply StronglySorted_Sorted, StronglySorted_filter.
  eapply StronglySorted_impl; [|apply StronglySorted_seqZ]. intros; lia.
Qed.

Lemma merge_sort_segment ps a b finalPrimes :
  finalPrimes ≡ₚ segment ps a b → merge_sort Z.le finalPrimes = segment ps a b.
Proof.
  intros Hperm. apply (Sorted_unique Z.le).
  - apply Sorted_merge_sort. apply _.
  - apply Sorted_le_segment.
  - by rewrite merge_sort_Permutation.
Qed.

(** ** Summary *)

Lemma summarize_unfold finalPrimes :
  summarize finalPrimes = summary_of (merge_sort Z.le finalPrimes).
Proof. done. Qed.

Lemma total_app l1 l2 : total (l1 ++ l2) = total l1 + total l2.
Proof. unfold total. induction l1 as [|x l1 IH]; simpl; lia. Qed.

Lemma total_Permutation l1 l2 : l1 ≡ₚ l2 → total l1 = total l2.
Proof. unfold total. induction 1; simpl; lia. Qed.

Lemma fold_left_sum l : ∀ acc,
  (∀ k, (k ≤ length l)%nat → LLONG_MIN ≤ acc + total (take k l) ≤ LLONG_MAX) →
  fold_left (λ sum p, wrap64 (sum + p)) l acc = acc + total l.
Proof.
  induction l as [|x l IH]; intros acc Hfit; simpl; [unfold total; simpl; lia|].
  pose proof (Hfit 1%nat ltac:(simpl; lia)) as H1.
  unfold total in H1. simpl in H1.
  rewrite wrap64_id by lia. rewrite IH; [unfold total; simpl; lia|].
  intros k Hk. specialize (Hfit (S k) ltac:(simpl; lia)).
  unfold total in *. simpl in Hfit. lia.
Qed.

Lemma sum_primes_exact l : sum_fits l → sum_primes l = total l.
Proof.
  intros Hfit. unfold sum_primes. rewrite fold_left_sum; [lia|].
  intros k Hk. specialize (Hfit k Hk). lia.
Qed.

Lemma sum_fits_nonneg l :
  Forall (λ x, 0 ≤ x) l → total l ≤ LLONG_MAX → sum_fits l.
Proof.
  intros Hpos Htot k Hk. rewrite <-(take_drop k l) in Htot, Hpos.
  rewrite total_app in Htot. apply Forall_app in Hpos as [Hp1 Hp2].
  assert (∀ l', Forall (λ x, 0 ≤ x) l' → 0 ≤ total l') as Hnn.
  { induction 1; unfold total in *; simpl; lia. }
  pose proof (Hnn _ Hp1). pose proof (Hnn _ Hp2). unfold LLONG_MIN. lia.
Qed.

Lemma top_ten_spec l :
  Z.of_nat (length l) ≤ INT_MAX →
  top_ten l (Z.of_nat (length l)) = Ok (drop (length l - 10) l).
Proof.
  intros Hlen. unfold top_ten. set (count := Z.of_nat (length l)).
  set (i0 := Z.max 0 (wrap32 (count - 10))).
  assert (i0 = Z.of_nat (length l - 10)) as Hi0.
  { subst i0. unfold INT_MAX in *.
    rewrite wrap32_id by (unfold INT_MIN, INT_MAX; lia). lia. }
  apply_while
    (λ '(i, top), i0 ≤ i ≤ count ∧
       top = take (Z.to_nat (i - i0)) (drop (length l - 10) l))
    (λ '(i, _), Z.to_nat (count - i)).
  - intros [i top] [Hi ->] Hc. apply Z.ltb_lt in Hc.
    destruct (lookup_is_Some_Z l i) as [x Hx]; [lia|].
    rewrite (vec_get_Ok l i x) by (lia || done). simpl.
    rewrite wrap32_id by (unfold INT_MIN, INT_MAX in *; lia).
    eexists; split; [done|]. split; [|simpl; lia]. split; [lia|].
    replace (Z.to_nat (i + 1 - i0)) with (S (Z.to_nat (i - i0))) by lia.
    symmetry. apply take_S_r. rewrite lookup_drop.
    by replace (length l - 10 + Z.to_nat (i - i0))%nat with (Z.to_nat i) by lia.
  - split; [lia|]. by rewrite Z.sub_diag.
  - simpl. lia.
  - destruct Hloop as ([i top] & -> & [Hi ->] & Hc). simpl. apply Z.ltb_ge in Hc.
    f_equal. apply take_ge. rewrite length_drop. lia.
Qed.

Lemma summary_of_spec l :
  Z.of_nat (length l) ≤ INT_MAX → sum_fits l →
  summary_of l =
  Ok (Summary l (Z.of_nat (length l)) (total l) (drop (length l - 10) l)).
Proof.
  intros Hlen Hfit. unfold summary_of.
  rewrite wrap32_id by (unfold INT_MIN, INT_MAX in *; lia).
  rewrite top_ten_spec by done. simpl. by rewrite sum_primes_exact.
Qed.

(** [count] is an [int]: on a vector of 2^31 elements it is negative, and
    the loop for the last ten does not run. *)
Lemma summarize_count_wraps (n : nat) :
  Z.of_nat n = 2147483648 →
  ∃ out, summarize (replicate n 2) = Ok out ∧ count out = -2147483648 ∧
         topTenPrimes out = [].
Proof.
  intros Hn. unfold summarize, summary_of.
  assert (length (merge_sort Z.le (replicate n 2)) = n) as ->
    by (by rewrite merge_sort_Permutation, length_replicate).
  rewrite Hn. change (wrap32 2147483648) with (-2147483648).
  unfold top_ten. change (wrap32 (-2147483648 - 10)) with 2147483638.
  simpl. by eexists.
Qed.

(** ** Further facts used by the claims *)

Lemma fair_id : fair id.
Proof. by intros l. Qed.

Lemma fair_reverse : fair reverse.
Proof. intros l. apply reverse_Permutation. Qed.

Lemma NoDup_segment ps a b : NoDup (segment ps a b).
Proof. apply NoDup_filter, NoDup_seqZ. Qed.

Lemma elem_of_segment ps a b x : x ∈ segment ps a b ↔ a ≤ x ≤ b ∧ kept ps x.
Proof. unfold segment. rewrite list_elem_of_filter, elem_of_seqZ. intuition lia. Qed.

Lemma tiles_last a l b :
  tiles a l b → l ≠ [] → ∃ chunkStart, last l = Some (chunkStart, b).
Proof.
  revert a. induction l as [|[cs ce] l IH]; intros a Ht Hne; [done|].
  destruct Ht as (-> & Hce & Ht). destruct l as [|c l].
  - simpl in Ht. exists a. simpl. do 2 f_equal. lia.
  - destruct (IH _ Ht) as [cs' Hlast]; [done|]. exists cs'. by rewrite last_cons, Hlast.
Qed.

Lemma tiles_cover a l b x :
  tiles a l b → a ≤ x ≤ b →
  ∃ i chunkStart chunkEnd,
    l !! i = Some (chunkStart, chunkEnd) ∧ chunkStart ≤ x ≤ chunkEnd ∧
    ∀ j chunkStart' chunkEnd',
      l !! j = Some (chunkStart', chunkEnd') → chunkStart' ≤ x ≤ chunkEnd' → j = i.
Proof.
  revert a. induction l as [|[cs ce] l IH]; intros a Ht Hx; simpl in Ht; [lia|].
  destruct Ht as (-> & Hce & Ht). destruct (Z_le_gt_dec x ce) as [Hle|Hgt].
  - exists 0%nat, a, ce. split; [done|]. split; [lia|].
    intros [|j] cs' ce' Hj Hx'; [done|]. simpl in Hj.
    apply list_elem_of_lookup_2 in Hj. pose proof (tiles_bounds _ _ _ _ _ Ht Hj). lia.
  - destruct (IH _ Ht) as (i & cs' & ce' & Hi & Hx' & Huniq); [lia|].
    exists (S i), cs', ce'. split; [done|]. split; [done|].
    intros [|j] cs'' ce'' Hj Hx''; simpl in Hj.
    + injection Hj as <- <-. lia.
    + f_equal. by eapply Huniq.
Qed.

Lemma prime_5 : Z.prime 5.
Proof.
  apply prime_small_divisors. split; [lia|]. intros d Hd Hdd [c Hc].
  assert (d = 2) as -> by nia. lia.
Qed.

Lemma marked_lookup start end_ ps v k :
  marked start end_ ps v → start ≤ k ≤ end_ →
  v !! Z.to_nat (k - start) = Some (bool_decide (¬ struck ps k)).
Proof.
  intros [Hlen Hv] Hk.
  destruct (lookup_is_Some_Z v (k - start)) as [b Hb]; [lia|].
  rewrite Hb. f_equal. specialize (Hv k b Hk Hb).
  destruct b; symmetry; [apply bool_decide_eq_true; tauto|].
  apply bool_decide_eq_false. intros Hns. by apply Hv in Hns.
Qed.

Lemma stride_from first p k :
  1 ≤ p → (p | first) → first ≤ k ∧ (p | k) ↔ ∃ j, 0 ≤ j ∧ k = first + j * p.
Proof.
  intros Hp [a ->]. split.
  - intros [Hk [c ->]]. exists (c - a). split; [nia|lia].
  - intros (j & Hj & ->). split; [nia|]. exists (a + j). lia.
Qed.

Lemma applicable_of_bounds end_ ps :
  Forall (λ p, 2 ≤ p ≤ INT_MAX ∧ end_ + p ≤ LLONG_MAX) ps →
  Forall (applicable end_) ps ∧ Forall (λ p, 2 ≤ p) ps.
Proof.
  intros Hps. split; (eapply Forall_impl; [exact Hps|]); intros p Hp; simpl in Hp;
    unfold applicable; lia.
Qed.

Lemma collect_segment_only start end_ isPrime localPrimes :
  collect_segment start end_ isPrime = Ok localPrimes →
  Forall (λ v, 1 < v ∧ isPrime !! Z.to_nat (wrap64 (v - start)) = Some true)
         localPrimes.
Proof.
  unfold collect_segment. intros ([i l] & Hw & [= <-])%bind_Ok.
  eapply (while_partial _ _
            (λ '(_, l), Forall (λ v, 1 < v ∧
               isPrime !! Z.to_nat (wrap64 (v - start)) = Some true) l))
    in Hw as [Hl _]; [done| |done].
  intros [j l1] [j' l'] Hl1 _. intros (b & Hb & [= <- <-])%bind_Ok.
  destruct b; [|done]. apply Forall_app. split; [done|]. apply Forall_singleton.
  destruct (1 <? j) eqn:H1; [|done]. apply vec_get_inv in Hb as [_ Hb].
  split; [lia|done].
Qed.

Lemma total_bound l M : Forall (λ x, 0 ≤ x ≤ M) l → 0 ≤ total l ≤ Z.of_nat (length l) * M.
Proof.
  induction 1 as [|x l Hx Hl IH]; unfold total in *; simpl; [lia|]. nia.
Qed.



(** ** Primes, and [main] as a whole *)

(** With entries that are at least 2 and every prime up to the root of
    [end_] among them, a worker keeps exactly the primes. *)
Lemma kept_prime ps end_ n :
  Forall (λ p, 2 ≤ p) ps → (∀ p, Z.prime p → p ≤ Z.sqrt end_ → p ∈ ps) →
  0 ≤ n ≤ end_ → kept ps n ↔ Z.prime n.
Proof.
  intros Hps Hall Hn. unfold kept, struck. rewrite prime_small_divisors, Exists_exists.
  split.
  - intros [? Hns]. split; [lia|]. intros d Hd Hdd Hdn.
    destruct (prime_divisor d Hd) as (p & Hp & Hpd).
    pose proof (Z.prime_ge_2 _ Hp). assert (p ≤ d) by (apply Z.divide_pos_le; [lia|done]).
    apply Hns. exists p. split; [|split; [nia|by etrans]].
    apply Hall; [done|]. apply Z.sqrt_le_square; nia.
  - intros [? Hnd]. split; [lia|]. intros (p & Hp & Hpp & Hpn).
    apply (Hnd p); [|done..]. by eapply Forall_forall in Hps.
Qed.

Lemma base_primes_bound ps end_ :
  0 ≤ end_ → Forall (λ p, p ≤ INT_MAX) ps →
  (∀ p, Z.prime p → p ≤ Z.sqrt end_ → p ∈ ps) →
  end_ < 2147483659 * 2147483659.
Proof.
  intros He Hps Hall. apply Z.nle_gt. intros Hbig.
  assert (2147483659 ∈ ps) as Hin.
  { apply Hall; [apply prime_2147483659|]. apply Z.sqrt_le_square; lia. }
  eapply Forall_forall in Hps; [|done]. unfold INT_MAX in Hps. lia.
Qed.

Lemma collect_primes_range limit v primes :
  limit < INT_MAX → collect_primes limit v = Ok primes →
  Forall (λ p, 2 ≤ p ≤ limit) primes.
Proof.
  intros Hlim. unfold collect_primes. intros ([i ps] & Hw & [= <-])%bind_Ok.
  eapply (while_partial _ _ (λ '(i, ps), 2 ≤ i ∧ Forall (λ p, 2 ≤ p ≤ limit) ps))
    in Hw as [[_ Hps] _]; [done| |by split].
  intros [j ps1] [j' ps'] [Hj Hps] Hc%Z.leb_le.
  intros (b & _ & [= <- <-])%bind_Ok.
  rewrite wrap32_id by (unfold INT_MIN, INT_MAX in *; lia). split; [lia|].
  destruct b; [|done]. apply Forall_app. split; [done|]. apply Forall_singleton. lia.
Qed.

Lemma simpleSieve_Ok_inv limit primes :
  INT_MIN ≤ limit ≤ INT_MAX → simpleSieve limit = Ok primes →
  1 ≤ limit < INT_MAX ∧ Forall (λ p, 2 ≤ p ≤ limit) primes.
Proof.
  intros Hlim. unfold simpleSieve.
  intros (v0 & Hnew & (v1 & Hset & (v2 & _ & (v3 & _ & Hcol)%bind_Ok)%bind_Ok)%bind_Ok)%bind_Ok.
  assert (1 ≤ limit < INT_MAX) as Hl.
  { unfold vec_new in Hnew. destruct (wrap32 (limit + 1) <? 0) eqn:Hneg; [done|].
    injection Hnew as <-. unfold vec_set in Hset. rewrite length_replicate in Hset.
    destruct (_ && _) eqn:Hb in Hset; [|done].
    apply andb_true_iff in Hb as [_ Hb%Z.ltb_lt].
    destruct (decide (limit = INT_MAX)) as [->|].
    - by vm_compute in Hneg.
    - rewrite wrap32_id in Hb by (unfold INT_MIN, INT_MAX in *; lia). lia. }
  split; [done|]. eapply collect_primes_range; [|done]. lia.
Qed.

Lemma double_sqrt_Z_sqrt : double_sqrt Z.sqrt.
Proof. split; intros x Hx; lia. Qed.

Section main_facts.
Context (sqrt_ll : Z → Z) (Hsqrt : double_sqrt sqrt_ll).

(** A successful base sieve bounds the range: no later operation of [main]
    leaves its integer type. *)
Lemma simpleSieve_sqrt_Ok end_ primes :
  1 ≤ end_ ≤ LLONG_MAX → simpleSieve (wrap32 (sqrt_ll end_)) = Ok primes →
  end_ < 4611686018427387904 ∧ Forall (λ p, 2 ≤ p ≤ INT_MAX) primes.
Proof.
  intros He Hs. destruct Hsqrt as [_ Hnear].
  apply simpleSieve_Ok_inv in Hs as [Hl Hps]; [|apply wrap32_range].
  assert (Z.sqrt end_ ≤ 3037000499) as Hsq.
  { change 3037000499 with (Z.sqrt LLONG_MAX). apply Z.sqrt_le_mono. lia. }
  pose proof (Z.sqrt_nonneg end_). specialize (Hnear end_ ltac:(lia)).
  destruct (Z_le_gt_dec (sqrt_ll end_) INT_MAX) as [Hle|Hgt].
  - rewrite wrap32_id in Hl, Hps by (unfold INT_MIN; lia).
    pose proof (Z.sqrt_spec end_ ltac:(lia)) as [_ Hub]. unfold INT_MAX in *.
    split; [nia|]. eapply Forall_impl; [done|]. simpl. lia.
  - rewrite wrap32_high in Hl by (unfold INT_MAX in *; lia). lia.
Qed.

(** [main] on a range that may start at or below zero, as long as
    [rangeSize + numThreads] is a [long long]. *)
Lemma main_spec sched start end_ numThreads :
  fair sched → LLONG_MIN ≤ start ≤ end_ → 1 ≤ end_ ≤ LLONG_MAX →
  1 ≤ numThreads ≤ INT_MAX → end_ - start + 1 + numThreads ≤ LLONG_MAX →
  main sqrt_ll sched start end_ numThreads =
  (let* smallPrimes := simpleSieve (wrap32 (sqrt_ll end_)) in
   summary_of (segment smallPrimes start end_)).
Proof.
  intros Hfair Hs He Hw Hrange. unfold main.
  destruct (simpleSieve (wrap32 (sqrt_ll end_))) as [ps|f] eqn:Hsieve; [|done].
  simpl. apply simpleSieve_sqrt_Ok in Hsieve as [Hlt Hps]; [|lia].
  assert (end_ + numThreads ≤ LLONG_MAX) by (unfold INT_MAX, LLONG_MAX in *; lia).
  assert (Forall (applicable end_) ps).
  { eapply Forall_impl; [done|]. intros p Hp.
    unfold applicable, INT_MAX, LLONG_MAX in *. lia. }
  destruct (run_workers_permutation sched start end_ numThreads ps)
    as (fp & -> & Hperm); [done..|].
  simpl. by rewrite summarize_unfold, (merge_sort_segment _ _ _ _ Hperm).
Qed.

Lemma main_schedule_and_threads sched1 sched2 start end_ numThreads1 numThreads2 :
  fair sched1 → fair sched2 → 1 ≤ start ≤ end_ → end_ ≤ LLONG_MAX →
  1 ≤ numThreads1 ≤ INT_MAX → 1 ≤ numThreads2 ≤ INT_MAX →
  main sqrt_ll sched1 start end_ numThreads1 =
  main sqrt_ll sched2 start end_ numThreads2.
Proof.
  intros Hf1 Hf2 Hs He Hw1 Hw2. unfold main.
  destruct (simpleSieve (wrap32 (sqrt_ll end_))) as [ps|f] eqn:Hsieve; [|done].
  pose proof Hsieve as [Hlt _]%simpleSieve_sqrt_Ok; [|lia].
  pose proof (main_spec sched1 start end_ numThreads1) as H1.
  pose proof (main_spec sched2 start end_ numThreads2) as H2.
  unfold main in H1, H2. rewrite Hsieve in H1, H2.
  unfold LLONG_MIN, LLONG_MAX, INT_MAX in *.
  rewrite H1, H2 by (done || lia). done.
Qed.

(** Up to [end_ = INT_MAX], [main] runs to its end. *)
Lemma main_total sched start end_ numThreads :
  fair sched → 1 ≤ start ≤ end_ → end_ ≤ INT_MAX → 1 ≤ numThreads ≤ INT_MAX →
  ∃ out, main sqrt_ll sched start end_ numThreads = Ok out.
Proof.
  intros Hfair Hs He Hw. unfold INT_MAX in He.
  rewrite main_spec by (done || unfold LLONG_MIN, LLONG_MAX, INT_MAX in *; lia).
  rewrite (proj1 Hsqrt) by lia.
  assert (1 ≤ Z.sqrt end_ ≤ 46340) as Hsq.
  { split; [change 1 with (Z.sqrt 1); apply Z.sqrt_le_mono; lia|].
    change 46340 with (Z.sqrt 2147483647). apply Z.sqrt_le_mono. lia. }
  rewrite wrap32_id by (unfold INT_MIN, INT_MAX; lia).
  assert (∃ ps, simpleSieve (Z.sqrt end_) = Ok ps) as [ps ->].
  { destruct (decide (Z.sqrt end_ = 1)) as [->|]; [by eexists|].
    destruct (simpleSieve_spec (Z.sqrt end_)) as (ps & -> & _); [lia|by eexists]. }
  simpl. assert (Forall (λ x, 0 ≤ x ≤ end_) (segment ps start end_)) as Hrange.
  { apply Forall_forall. intros x [Hx _]%elem_of_segment. lia. }
  assert (Z.of_nat (length (segment ps start end_)) ≤ end_) as Hlen.
  { unfold segment.
    pose proof (length_filter (kept ps) (seqZ start (end_ - start + 1))) as Hf.
    rewrite length_seqZ in Hf. lia. }
  rewrite summary_of_spec; [by eexists|unfold INT_MAX; lia|].
  apply sum_fits_nonneg.
  - eapply Forall_impl; [exact Hrange|]. simpl. lia.
  - pose proof (total_bound _ _ Hrange). unfold LLONG_MAX. nia.
Qed.

End main_facts.

(** * The claims *)

(** C1.  For every range [[s, e]] with [1 <= s <= e] and every number of
    workers, whatever the order in which the workers append, the merged
    vector holds exactly the primes of the range, each once, and sorting it
    gives them in strictly ascending order; provided [smallPrimes], a vector
    of [int]s that are at least 2, contains every prime up to the integer
    square root of [e]. *)
Theorem workers_find_the_primes sched s e W smallPrimes :
  fair sched → 1 ≤ s ≤ e → e ≤ LLONG_MAX → 1 ≤ W ≤ INT_MAX →
  Forall (λ p, 2 ≤ p ≤ INT_MAX) smallPrimes →
  (∀ p, Z.prime p → p ≤ Z.sqrt e → p ∈ smallPrimes) →
  ∃ finalPrimes,
    run_workers sched s e W smallPrimes = Ok finalPrimes ∧
    NoDup finalPrimes ∧
    (∀ x, x ∈ finalPrimes ↔ s ≤ x ≤ e ∧ Z.prime x) ∧
    Sorted Z.lt (merge_sort Z.le finalPrimes) ∧
    (∀ x, x ∈ merge_sort Z.le finalPrimes ↔ s ≤ x ≤ e ∧ Z.prime x).
Proof.
  intros Hfair Hs He Hw Hps Hall.
  assert (e < 2147483659 * 2147483659) as Hbound.
  { apply (base_primes_bound smallPrimes); [lia| |done].
    eapply Forall_impl; [done|]. intros ? ?; simpl in *; lia. }
  assert (Forall (applicable e) smallPrimes) as Happ.
  { eapply Forall_impl; [done|]. intros p Hp. simpl in Hp.
    unfold applicable, INT_MAX, LLONG_MAX in *. lia. }
  destruct (run_workers_spec sched s e W smallPrimes)
    as (fp & Hrun & Hperm); [done..|unfold INT_MAX, LLONG_MAX in *; lia|done|].
  assert (∀ x, x ∈ segment smallPrimes s e ↔ s ≤ x ≤ e ∧ Z.prime x) as Hseg.
  { assert (Forall (λ p, 2 ≤ p) smallPrimes) as Hge2
      by (eapply Forall_impl; [exact Hps|]; intros ? ?; simpl in *; lia).
    intros x. rewrite elem_of_segment. split; intros [Hx Hk]; (split; [done|]).
    - apply (kept_prime smallPrimes e x); [done..|lia|done].
    - apply (kept_prime smallPrimes e x); [done..|lia|done]. }
  exists fp. split; [done|]. rewrite (merge_sort_segment _ _ _ _ Hperm).
  split; [rewrite Hperm; apply NoDup_segment|].
  split; [intros x; by rewrite Hperm|].
  split; [apply Sorted_lt_segment|done].
Qed.

Lemma workers_find_the_primes_witness :
  ∃ finalPrimes,
    run_workers reverse 1 15 4 [2; 3] = Ok finalPrimes ∧
    NoDup finalPrimes ∧
    (∀ x, x ∈ finalPrimes ↔ 1 ≤ x ≤ 15 ∧ Z.prime x) ∧
    Sorted Z.lt (merge_sort Z.le finalPrimes) ∧
    (∀ x, x ∈ merge_sort Z.le finalPrimes ↔ 1 ≤ x ≤ 15 ∧ Z.prime x).
Proof.
  apply (workers_find_the_primes reverse 1 15 4 [2; 3]).
  - apply fair_reverse.
  - lia.
  - unfold LLONG_MAX. lia.
  - unfold INT_MAX. lia.
  - unfold INT_MAX. repeat constructor; lia.
  - intros p Hp Hle. change (Z.sqrt 15) with 3 in Hle.
    pose proof (Z.prime_ge_2 p Hp).
    assert (p = 2 ∨ p = 3) as [-> | ->] by lia; [by left|by right; left].
Defined.

(** C2, as amended.  For every limit [L] with [2 <= L < 46340 * 46340],
    [simpleSieve L] returns exactly the primes up to [L], in strictly
    ascending order, hence without duplicates.  Below that bound [i * i],
    [j += i] and [limit + 1] stay within [int]. *)
Theorem simpleSieve_primes L :
  2 ≤ L < 46340 * 46340 →
  ∃ primes, simpleSieve L = Ok primes ∧ Sorted Z.lt primes ∧
            ∀ p, p ∈ primes ↔ Z.prime p ∧ p ≤ L.
Proof. intros HL. apply simpleSieve_spec. lia. Qed.

Lemma simpleSieve_primes_witness :
  ∃ primes, simpleSieve 30 = Ok primes ∧ Sorted Z.lt primes ∧
            ∀ p, p ∈ primes ↔ Z.prime p ∧ p ≤ 30.
Proof. apply (simpleSieve_primes 30). lia. Defined.

(** C2 as stated fails from [L = 46340 * 46340] on: there the loop test
    [i * i <= limit] leaves [int] at [i = 46341], and at the prime 46349
    the marking starts at a negative index; at the largest [int] already
    [limit + 1] is not an [int]. *)
Lemma simpleSieve_from_46340_squared :
  2 ≤ 46340 * 46340 ∧
  simpleSieve (46340 * 46340) = Fault OutOfBounds ∧
  simpleSieve INT_MAX = Fault LengthError.
Proof.
  split; [lia|]. split.
  - by rewrite simpleSieve_faults by (unfold INT_MAX; lia).
  - by rewrite simpleSieve_faults by (unfold INT_MAX; lia).
Qed.

(** C3, as amended.  In the segment worker, for every chunk
    [1 <= chunkStart <= chunkEnd] and base primes [p] that are [int]s of at
    least 2 with [chunkEnd + p] within [long long]: the loop for [p] clears
    exactly the positions [first], [first + p], [first + 2p], ... up to
    [chunkEnd], where [first] is [max(p^2, ceil(chunkStart / p) * p)], and
    leaves every other position as it was.  Consequently, after all base
    primes, no prime of the chunk is cleared, every number of the chunk
    that a base prime [p] divides and that is at least [p^2] is cleared,
    and when the base primes include every prime up to the integer square
    root of [chunkEnd], every composite of the chunk is cleared. *)
Theorem marking_from_first_multiple start end_ smallPrimes :
  1 ≤ start ≤ end_ → end_ ≤ LLONG_MAX →
  Forall (λ p, 2 ≤ p ≤ INT_MAX ∧ end_ + p ≤ LLONG_MAX) smallPrimes →
  (∀ p isPrime,
     p ∈ smallPrimes → length isPrime = Z.to_nat (end_ - start + 1) →
     let first := Z.max (p * p) ((start + p - 1) / p * p) in
     ∃ isPrime',
       mark_prime start end_ isPrime p = Ok isPrime' ∧
       ∀ k, start ≤ k ≤ end_ →
         ((∃ j, 0 ≤ j ∧ k = first + j * p) →
            isPrime' !! Z.to_nat (k - start) = Some false) ∧
         (¬ (∃ j, 0 ≤ j ∧ k = first + j * p) →
            isPrime' !! Z.to_nat (k - start) = isPrime !! Z.to_nat (k - start))) ∧
  ∃ isPrime,
    mark_composites start end_ smallPrimes = Ok isPrime ∧
    (∀ k, start ≤ k ≤ end_ → Z.prime k →
          isPrime !! Z.to_nat (k - start) = Some true) ∧
    (∀ k p, start ≤ k ≤ end_ → p ∈ smallPrimes → (p | k) → p * p ≤ k →
            isPrime !! Z.to_nat (k - start) = Some false) ∧
    ((∀ q, Z.prime q → q ≤ Z.sqrt end_ → q ∈ smallPrimes) →
     ∀ k, start ≤ k ≤ end_ → 1 < k → ¬ Z.prime k →
          isPrime !! Z.to_nat (k - start) = Some false).
Proof.
  intros Hs He Hps. destruct (applicable_of_bounds _ _ Hps) as [Happ Hge2].
  assert (LLONG_MIN ≤ start ≤ end_) as Hs' by (unfold LLONG_MIN; lia).
  assert (end_ - start < LLONG_MAX) as Hsize by lia.
  split.
  - intros p v Hp Hlen first.
    assert (applicable end_ p) as Hap by (by eapply Forall_forall in Happ).
    destruct (mark_prime_effect start end_ v p) as (v' & -> & _ & Hv'); [done..|].
    destruct (firstMultiple_spec start end_ p Hs' Hap) as (Hpf & _).
    rewrite (firstMultiple_formula start end_ p Hs Hap) in Hv', Hpf. fold first in Hv', Hpf.
    exists v'. split; [done|]. intros k Hk. rewrite (Hv' k Hk).
    rewrite <-(stride_from first p k) by (done || (destruct Hap; lia)).
    split; intros Hd; [by rewrite decide_True|by rewrite decide_False].
  - destruct (mark_composites_spec start end_ smallPrimes) as (v & -> & Hv); [done..|].
    exists v. split; [done|]. split; [|split].
    + intros k Hk Hprime. rewrite (marked_lookup _ _ _ _ _ Hv Hk). f_equal.
      apply bool_decide_eq_true. intros (p & Hp & Hpp & Hpk)%Exists_exists.
      apply prime_small_divisors in Hprime as [_ Hno]. apply (Hno p); [|done..].
      by eapply Forall_forall in Hge2.
    + intros k p Hk Hp Hpk Hpp. rewrite (marked_lookup _ _ _ _ _ Hv Hk). f_equal.
      apply bool_decide_eq_false. intros Hns. apply Hns, Exists_exists. eauto.
    + intros Hall k Hk H1 Hnp. rewrite (marked_lookup _ _ _ _ _ Hv Hk). f_equal.
      apply bool_decide_eq_false. intros Hns. apply Hnp.
      apply (kept_prime smallPrimes end_ k); [done..|lia|by split].
Qed.

Lemma marking_from_first_multiple_witness :
  (1 ≤ 26 ≤ 50 ∧ Forall (λ p, 2 ≤ p ≤ INT_MAX ∧ 50 + p ≤ LLONG_MAX) [2; 3; 5; 7]) ∧
  ∃ isPrime,
    mark_composites 26 50 [2; 3; 5; 7] = Ok isPrime ∧
    (∀ k, 26 ≤ k ≤ 50 → Z.prime k → isPrime !! Z.to_nat (k - 26) = Some true) ∧
    (∀ k p, 26 ≤ k ≤ 50 → p ∈ [2; 3; 5; 7] → (p | k) → p * p ≤ k →
            isPrime !! Z.to_nat (k - 26) = Some false).
Proof.
  assert (1 ≤ 26 ≤ 50) as Hs by lia.
  assert (50 ≤ LLONG_MAX) as He by (unfold LLONG_MAX; lia).
  assert (Forall (λ p, 2 ≤ p ≤ INT_MAX ∧ 50 + p ≤ LLONG_MAX) [2; 3; 5; 7]) as Hps
    by (unfold INT_MAX, LLONG_MAX; repeat constructor; lia).
  split; [by split|].
  destruct (marking_from_first_multiple 26 50 [2; 3; 5; 7] Hs He Hps)
    as (_ & isPrime & Hmark & Hprime & Hstruck & _).
  exists isPrime. by split; [|split].
Defined.

(** C3 as stated fails in two ways.  At the top of [long long],
    [start + prime - 1] leaves the type, the loop for 7 starts at 49 instead
    of at [2^63 - 1], and writes outside the mapping.  And 10, a composite
    with the base prime 5 as a factor, stays unmarked in the chunk
    [[10, 10]] when 5 is the only base prime, since marking starts at 25. *)
Lemma marking_counterexamples :
  (1 ≤ 9223372036854775802 ∧
   Z.max (7 * 7) ((9223372036854775802 + 7 - 1) / 7 * 7) = 9223372036854775807 ∧
   firstMultiple 9223372036854775802 7 = 49 ∧
   mark_composites 9223372036854775802 9223372036854775806 [7] = Fault OutOfBounds) ∧
  (Z.prime 5 ∧ (5 | 10) ∧ ¬ Z.prime 10 ∧ mark_composites 10 10 [5] = Ok [true]).
Proof.
  split; [split; [lia|]; split; [|split]; vm_compute; reflexivity|].
  split; [apply prime_5|]. split; [by exists 2|]. split; [|vm_compute; reflexivity].
  intros [_ H10]. apply (H10 2); [lia|by exists 5].
Qed.

(** C4, as amended.  For every range [1 <= start <= end] and every
    [numThreads >= 1] with [end + numThreads] within [long long], where
    [chunkSize] is [rangeSize / numThreads] rounded up: the launched chunks
    are the [[start + i * chunkSize, min(end, start + i * chunkSize +
    chunkSize - 1)]] for exactly the [i < numThreads] whose start does not
    exceed [end]; they tile [[start, end]]: each is non-empty, the first
    starts at [start], each next one starts right after the previous one
    ends, the last one ends at [end]; so every integer of the range lies in
    one chunk and no two chunks share one. *)
Theorem chunks_cover start end_ numThreads :
  1 ≤ start ≤ end_ → 1 ≤ numThreads ≤ INT_MAX → end_ + numThreads ≤ LLONG_MAX →
  let rangeSize := end_ - start + 1 in
  let chunkSize := (rangeSize + numThreads - 1) / numThreads in
  numThreads * (chunkSize - 1) < rangeSize ≤ numThreads * chunkSize ∧
  ∃ l, chunks start end_ numThreads = Ok l ∧
    (∀ i, 0 ≤ i →
       l !! Z.to_nat i =
       if decide (i < numThreads ∧ start + i * chunkSize ≤ end_)
       then Some (start + i * chunkSize,
                  Z.min end_ (start + i * chunkSize + chunkSize - 1))
       else None) ∧
    tiles start l end_ ∧
    (∃ chunkStart, last l = Some (chunkStart, end_)) ∧
    (∀ x, start ≤ x ≤ end_ →
       ∃ i chunkStart chunkEnd,
         l !! i = Some (chunkStart, chunkEnd) ∧ chunkStart ≤ x ≤ chunkEnd ∧
         ∀ j chunkStart' chunkEnd',
           l !! j = Some (chunkStart', chunkEnd') →
           chunkStart' ≤ x ≤ chunkEnd' → j = i).
Proof.
  intros Hs Hw Hsize rangeSize chunkSize.
  pose proof (ceil_div_bounds rangeSize numThreads ltac:(unfold rangeSize; lia)
                ltac:(lia)) as Hceil. simpl in Hceil. fold chunkSize in Hceil.
  split; [done|].
  destruct (chunks_formula start end_ numThreads) as (n & Hn & Hend & Hl & Ht);
    [done..|]. fold rangeSize chunkSize in Hend, Hl, Ht.
  eexists. split; [done|]. split; [|split; [done|split]].
  - intros i Hi. rewrite list_lookup_fmap. case_decide as Hd.
    + rewrite lookup_seqZ_lt by nia. simpl.
      by replace (0 + Z.of_nat (Z.to_nat i)) with i by lia.
    + rewrite lookup_seqZ_ge; [done|]. apply Z.nlt_ge. intros Hlt. apply Hd. nia.
  - apply (tiles_last _ _ _ Ht). rewrite seqZ_cons by lia. done.
  - intros x Hx. by apply (tiles_cover start _ end_).
Qed.

Lemma chunks_cover_witness :
  let chunkSize := (100 - 1 + 1 + 8 - 1) / 8 in
  8 * (chunkSize - 1) < 100 - 1 + 1 ≤ 8 * chunkSize ∧
  ∃ l, chunks 1 100 8 = Ok l ∧
    (∀ i, 0 ≤ i →
       l !! Z.to_nat i =
       if decide (i < 8 ∧ 1 + i * chunkSize ≤ 100)
       then Some (1 + i * chunkSize, Z.min 100 (1 + i * chunkSize + chunkSize - 1))
       else None) ∧
    tiles 1 l 100 ∧
    (∃ chunkStart, last l = Some (chunkStart, 100)) ∧
    (∀ x, 1 ≤ x ≤ 100 →
       ∃ i chunkStart chunkEnd,
         l !! i = Some (chunkStart, chunkEnd) ∧ chunkStart ≤ x ≤ chunkEnd ∧
         ∀ j chunkStart' chunkEnd',
           l !! j = Some (chunkStart', chunkEnd') →
           chunkStart' ≤ x ≤ chunkEnd' → j = i).
Proof.
  apply (chunks_cover 1 100 8); [lia|unfold INT_MAX; lia|unfold LLONG_MAX; lia].
Defined.

(** C4 as stated fails where [rangeSize + numThreads] leaves [long long]:
    the chunks launched for [[1, 2^63 - 1]] and two threads are not even
    intervals of the range. *)
Lemma chunks_overflow :
  chunks 1 LLONG_MAX 2 =
    Ok [(1, -4611686018427387904); (-4611686018427387903, LLONG_MIN)] ∧
  ¬ ∃ l, chunks 1 LLONG_MAX 2 = Ok l ∧ tiles 1 l LLONG_MAX.
Proof.
  assert (chunks 1 LLONG_MAX 2 =
          Ok [(1, -4611686018427387904); (-4611686018427387903, LLONG_MIN)])
    as Hrun by (vm_compute; reflexivity).
  split; [done|]. intros (l & Hl & Ht). rewrite Hrun in Hl. injection Hl as <-.
  simpl in Ht. lia.
Qed.

(** C5.  The summary that [main] produces is the same for every order in
    which the workers append and for every number of workers: two runs on
    the same range give the same sorted primes, count, sum and last ten
    (or stop on the same fault), and up to [end = INT_MAX] a run does give
    a summary. *)
Theorem main_deterministic sqrt_ll sched1 sched2 start end_ numThreads1 numThreads2 :
  double_sqrt sqrt_ll →
  fair sched1 → fair sched2 → 1 ≤ start ≤ end_ → end_ ≤ LLONG_MAX →
  1 ≤ numThreads1 ≤ INT_MAX → 1 ≤ numThreads2 ≤ INT_MAX →
  main sqrt_ll sched1 start end_ numThreads1 =
    main sqrt_ll sched2 start end_ numThreads2 ∧
  (end_ ≤ INT_MAX → ∃ out, main sqrt_ll sched1 start end_ numThreads1 = Ok out).
Proof.
  intros Hsqrt Hf1 Hf2 Hs He Hw1 Hw2. split.
  - by apply main_schedule_and_threads.
  - intros He'. by apply main_total.
Qed.

Lemma main_deterministic_witness :
  main Z.sqrt id 1 100 1 = main Z.sqrt reverse 1 100 17 ∧
  (100 ≤ INT_MAX → ∃ out, main Z.sqrt id 1 100 1 = Ok out).
Proof.
  apply (main_deterministic Z.sqrt id reverse 1 100 1 17).
  - apply double_sqrt_Z_sqrt.
  - apply fair_id.
  - apply fair_reverse.
  - lia.
  - unfold LLONG_MAX. lia.
  - unfold INT_MAX. lia.
  - unfold INT_MAX. lia.
Defined.

(** C6, as amended.  For every result sequence of at most [INT_MAX]
    elements such that no running total of the sorted sequence leaves
    [long long], the summary holds the sequence sorted ascending, its
    length as the count, the exact sum of its elements, and the last ten
    elements of the sorted sequence, which are all of them when there are
    fewer than ten.  The empty sequence gives count 0, sum 0 and no top
    element. *)
Theorem summarize_exact results :
  Z.of_nat (length results) ≤ INT_MAX → sum_fits (merge_sort Z.le results) →
  let sorted := merge_sort Z.le results in
  Sorted Z.le sorted ∧ sorted ≡ₚ results ∧
  summarize results =
    Ok (Summary sorted (Z.of_nat (length results)) (total results)
                (drop (length results - 10) sorted)) ∧
  length (drop (length results - 10) sorted) = (length results `min` 10)%nat ∧
  ((length results < 10)%nat → drop (length results - 10) sorted = sorted) ∧
  summarize [] = Ok (Summary [] 0 0 []).
Proof.
  intros Hlen Hfit sorted.
  assert (sorted ≡ₚ results) as Hperm by apply merge_sort_Permutation.
  assert (length sorted = length results) as Hl by (by rewrite Hperm).
  split; [apply Sorted_merge_sort; apply _|]. split; [done|].
  split; [|split; [|split]].
  - rewrite summarize_unfold. fold sorted. rewrite summary_of_spec by (done || lia).
    by rewrite Hl, (total_Permutation _ _ Hperm).
  - rewrite length_drop. lia.
  - intros Hlt. replace (length results - 10)%nat with 0%nat by lia. done.
  - done.
Qed.

Lemma summarize_exact_witness :
  summarize [5; 3; 2] = Ok (Summary [2; 3; 5] 3 10 [2; 3; 5]).
Proof.
  destruct (summarize_exact [5; 3; 2]) as (_ & _ & Hsum & _).
  - unfold INT_MAX. simpl. lia.
  - apply sum_fits_nonneg.
    + change (merge_sort Z.le [5; 3; 2]) with [2; 3; 5]. repeat constructor; lia.
    + by vm_compute.
  - exact Hsum.
Defined.

(** C6 as stated fails once the sum leaves [long long], or the length
    [int]: the three primes from 4500000000000000000 on add up to
    13500000000000000255, and the accumulator ends at that value reduced
    modulo 2^64; and on 2^31 elements [count] is negative and the last ten
    are not collected. *)
Lemma summarize_overflows :
  (let results :=
     [4500000000000000101; 4500000000000000011; 4500000000000000143] in
   total results = 13500000000000000255 ∧
   ∃ out, summarize results = Ok out ∧ sum out = -4946744073709551361 ∧
          sum out ≠ total results) ∧
  (let results := replicate (Z.to_nat 2147483648) 2 in
   Z.of_nat (length results) = 2147483648 ∧
   ∃ out, summarize results = Ok out ∧ count out = -2147483648 ∧
          topTenPrimes out = []).
Proof.
  split.
  - intros results. split; [by vm_compute|]. eexists. split; [by vm_compute|].
    split; [done|]. by vm_compute.
  - intros results.
    assert (Z.of_nat (Z.to_nat 2147483648) = 2147483648) as Hn by (by rewrite Z2Nat.id).
    split; [unfold results; by rewrite length_replicate|].
    by apply summarize_count_wraps.
Qed.

(** C7.  For a chunk with [chunkStart <= 1], the values 0 and 1 are not in
    the worker's output although their flags in the local mapping are still
    set: the extraction loop takes a value exactly when it is greater than
    1 and its flag is set.  The second part holds for every call that
    returns, whatever its arguments: each value appended is greater than 1
    and had its flag set. *)
Theorem worker_excludes_0_and_1 :
  (∀ start end_ smallPrimes result,
     LLONG_MIN ≤ start ≤ 1 → start ≤ end_ → end_ < LLONG_MAX →
     end_ - start < LLONG_MAX →
     Forall (λ p, 2 ≤ p ≤ INT_MAX ∧ end_ + p ≤ LLONG_MAX) smallPrimes →
     ∃ isPrime localPrimes,
       mark_composites start end_ smallPrimes = Ok isPrime ∧
       collect_segment start end_ isPrime = Ok localPrimes ∧
       sieveWorker start end_ smallPrimes result = Ok (result ++ localPrimes) ∧
       (∀ v, start ≤ v ≤ end_ → v ≤ 1 →
             isPrime !! Z.to_nat (v - start) = Some true) ∧
       (∀ v, v ∈ localPrimes ↔
             start ≤ v ≤ end_ ∧ 1 < v ∧
             isPrime !! Z.to_nat (v - start) = Some true) ∧
       (0 ∉ localPrimes) ∧ (1 ∉ localPrimes)) ∧
  (∀ start end_ smallPrimes result out,
     sieveWorker start end_ smallPrimes result = Ok out →
     ∃ isPrime localPrimes,
       mark_composites start end_ smallPrimes = Ok isPrime ∧
       out = result ++ localPrimes ∧
       Forall (λ v, 1 < v ∧
                 isPrime !! Z.to_nat (wrap64 (v - start)) = Some true)
              localPrimes ∧
       (0 ∉ localPrimes) ∧ (1 ∉ localPrimes)).
Proof.
  split.
  - intros start end_ ps result Hs Hse He Hsize Hps.
    destruct (applicable_of_bounds _ _ Hps) as [Happ Hge2].
    assert (LLONG_MIN ≤ start ≤ end_) as Hs' by lia.
    destruct (mark_composites_spec start end_ ps) as (v & Hv & Hm); [done..|].
    pose proof (collect_segment_spec start end_ v Hs' He Hsize (proj1 Hm)) as Hc.
    eexists v, _. split; [done|]. split; [done|].
    split; [unfold sieveWorker; by rewrite Hv; simpl; rewrite Hc|].
    split; [|split; [|split]].
    + intros k Hk Hk1. rewrite (marked_lookup _ _ _ _ _ Hm Hk). f_equal.
      apply bool_decide_eq_true. intros (p & Hp & Hpp & _)%Exists_exists.
      eapply Forall_forall in Hge2; [|done]. nia.
    + intros k. rewrite list_elem_of_filter, elem_of_seqZ. intuition lia.
    + intros [[? _] _]%list_elem_of_filter. lia.
    + intros [[? _] _]%list_elem_of_filter. lia.
  - intros start end_ ps result out.
    unfold sieveWorker. intros (v & Hv & (l & Hl & [= <-])%bind_Ok)%bind_Ok.
    exists v, l. split; [done|]. split; [done|].
    pose proof (collect_segment_only _ _ _ _ Hl) as Hall. split; [done|].
    split; intros Hin; eapply Forall_forall in Hall; try exact Hin; lia.
Qed.

Lemma worker_excludes_0_and_1_witness :
  (∃ isPrime localPrimes,
     mark_composites 0 10 [2; 3] = Ok isPrime ∧
     collect_segment 0 10 isPrime = Ok localPrimes ∧
     sieveWorker 0 10 [2; 3] [] = Ok ([] ++ localPrimes) ∧
     (∀ v, 0 ≤ v ≤ 10 → v ≤ 1 → isPrime !! Z.to_nat (v - 0) = Some true) ∧
     (∀ v, v ∈ localPrimes ↔
           0 ≤ v ≤ 10 ∧ 1 < v ∧ isPrime !! Z.to_nat (v - 0) = Some true) ∧
     (0 ∉ localPrimes) ∧ (1 ∉ localPrimes)) ∧
  (∃ isPrime localPrimes,
     mark_composites 1 10 [2; 3] = Ok isPrime ∧
     [2; 3; 5; 7] = [] ++ localPrimes ∧
     Forall (λ v, 1 < v ∧ isPrime !! Z.to_nat (wrap64 (v - 1)) = Some true)
            localPrimes ∧
     (0 ∉ localPrimes) ∧ (1 ∉ localPrimes)).
Proof.
  split.
  - apply (proj1 worker_excludes_0_and_1 0 10 [2; 3] []).
    + unfold LLONG_MIN. lia.
    + lia.
    + unfold LLONG_MAX. lia.
    + unfold LLONG_MAX. lia.
    + unfold INT_MAX, LLONG_MAX. repeat constructor; lia.
  - apply (proj2 worker_excludes_0_and_1 1 10 [2; 3] [] [2; 3; 5; 7]).
    vm_compute. reflexivity.
Defined.

(** C8.  [simpleSieve 1] returns the empty sequence, but [simpleSieve 0]
    does not: its mapping has one element and [isPrime[1] = false] writes
    past it. *)
Theorem simpleSieve_below_2 :
  simpleSieve 1 = Ok [] ∧ simpleSieve 0 = Fault OutOfBounds.
Proof. split; vm_compute; reflexivity. Qed.

(** C9.  On the range [[1, 100]] with four workers [main] gives count 25,
    sum 1060 and the last ten primes 53 to 97; on [[1, 30]], with any
    number of workers, the primes 2 to 29, count 10 and sum 129; both
    whatever the order in which the workers append. *)
Theorem main_on_1_100_and_1_30 sqrt_ll sched :
  double_sqrt sqrt_ll → fair sched →
  main sqrt_ll sched 1 100 4 =
    Ok (Summary [2; 3; 5; 7; 11; 13; 17; 19; 23; 29; 31; 37; 41; 43; 47; 53;
                 59; 61; 67; 71; 73; 79; 83; 89; 97]
                25 1060 [53; 59; 61; 67; 71; 73; 79; 83; 89; 97]) ∧
  ∀ numThreads, 1 ≤ numThreads ≤ INT_MAX →
    main sqrt_ll sched 1 30 numThreads =
      Ok (Summary [2; 3; 5; 7; 11; 13; 17; 19; 23; 29] 10 129
                  [2; 3; 5; 7; 11; 13; 17; 19; 23; 29]).
Proof.
  intros Hsqrt Hfair.
  assert (sqrt_ll 100 = 10 ∧ sqrt_ll 30 = 5) as [H100 H30]
    by (split; by rewrite (proj1 Hsqrt)).
  split.
  - rewrite (main_schedule_and_threads sqrt_ll Hsqrt sched id 1 100 4 4);
      [|done|apply fair_id|lia|unfold LLONG_MAX; lia|unfold INT_MAX; lia..].
    unfold main. rewrite H100. by vm_compute.
  - intros numThreads Hw.
    rewrite (main_schedule_and_threads sqrt_ll Hsqrt sched id 1 30 numThreads 8);
      [|done|apply fair_id|lia|unfold LLONG_MAX; lia|done|unfold INT_MAX; lia].
    unfold main. rewrite H30. by vm_compute.
Qed.

Lemma main_on_1_100_and_1_30_witness :
  main Z.sqrt reverse 1 100 4 =
    Ok (Summary [2; 3; 5; 7; 11; 13; 17; 19; 23; 29; 31; 37; 41; 43; 47; 53;
                 59; 61; 67; 71; 73; 79; 83; 89; 97]
                25 1060 [53; 59; 61; 67; 71; 73; 79; 83; 89; 97]) ∧
  main Z.sqrt reverse 1 30 8 =
    Ok (Summary [2; 3; 5; 7; 11; 13; 17; 19; 23; 29] 10 129
                [2; 3; 5; 7; 11; 13; 17; 19; 23; 29]).
Proof.
  destruct (main_on_1_100_and_1_30 Z.sqrt reverse double_sqrt_Z_sqrt fair_reverse)
    as [H100 H30].
  split; [exact H100|]. apply H30. unfold INT_MAX. lia.
Defined.

(** C10, as amended.  In the segment worker, for every chunk
    [1 <= start <= end < 2^63 - 1] and base primes [p] that are [int]s of at
    least 2 with [end + p] within [long long], every access to the local
    mapping is in bounds: the first marked multiple is
    [max(p * p, ceil(start / p) * p)] and is at least [start], and the
    marking loops and the extraction loop run to their end without an
    out-of-range index, on the mapping of size [end - start + 1]. *)
Theorem worker_in_bounds start end_ smallPrimes result :
  1 ≤ start ≤ end_ → end_ < LLONG_MAX →
  Forall (λ p, 2 ≤ p ≤ INT_MAX ∧ end_ + p ≤ LLONG_MAX) smallPrimes →
  (∀ p, p ∈ smallPrimes →
        firstMultiple start p = Z.max (p * p) ((start + p - 1) / p * p) ∧
        start ≤ firstMultiple start p) ∧
  ∃ isPrime localPrimes,
    mark_composites start end_ smallPrimes = Ok isPrime ∧
    length isPrime = Z.to_nat (end_ - start + 1) ∧
    collect_segment start end_ isPrime = Ok localPrimes ∧
    sieveWorker start end_ smallPrimes result = Ok (result ++ localPrimes).
Proof.
  intros Hs He Hps. destruct (applicable_of_bounds _ _ Hps) as [Happ _].
  assert (LLONG_MIN ≤ start ≤ end_) as Hs' by (unfold LLONG_MIN; lia).
  assert (end_ - start < LLONG_MAX) as Hsize by lia.
  split.
  - intros p Hp. assert (applicable end_ p) as Hap by (by eapply Forall_forall in Happ).
    split; [by eapply firstMultiple_formula|].
    by destruct (firstMultiple_spec start end_ p Hs' Hap) as (_ & _ & [? _] & _).
  - destruct (mark_composites_spec start end_ smallPrimes) as (v & Hv & Hlen & Hm);
      [done..|].
    exists v, (segment smallPrimes start end_). split; [done|]. split; [done|].
    pose proof (sieveWorker_spec start end_ smallPrimes result Hs' He Hsize Happ) as Hw.
    split; [|done]. unfold sieveWorker in Hw. rewrite Hv in Hw. simpl in Hw.
    destruct (collect_segment start end_ v) as [l|f]; simpl in Hw; [|done].
    injection Hw as Hw. by apply app_inv_head in Hw as ->.
Qed.

Lemma worker_in_bounds_witness :
  ∃ isPrime localPrimes,
    mark_composites 26 50 [2; 3; 5; 7] = Ok isPrime ∧
    length isPrime = Z.to_nat (50 - 26 + 1) ∧
    collect_segment 26 50 isPrime = Ok localPrimes ∧
    sieveWorker 26 50 [2; 3; 5; 7] [23] = Ok ([23] ++ localPrimes).
Proof.
  apply (worker_in_bounds 26 50 [2; 3; 5; 7] [23]).
  - lia.
  - unfold LLONG_MAX. lia.
  - unfold INT_MAX, LLONG_MAX. repeat constructor; lia.
Defined.

(** C10 as stated fails at the top of [long long]: for the one-element
    chunk [[2^63 - 1, 2^63 - 1]] and the base prime 2, [start + prime - 1]
    leaves the type and the marking loop indexes the mapping out of range. *)
Lemma worker_out_of_bounds :
  1 ≤ LLONG_MAX ≤ LLONG_MAX ∧ 2 ≤ 2 ∧
  sieveWorker LLONG_MAX LLONG_MAX [2] [] = Fault OutOfBounds.
Proof. split; [done|]. split; [done|]. vm_compute. reflexivity. Qed.

(** * Further properties of the code *)

(** ** Auxiliary lemmas *)

Lemma wrap32_le x : 0 ≤ x → wrap32 x ≤ x.
Proof.
  intros Hx. destruct (Z_le_gt_dec x INT_MAX) as [Hle|Hgt].
  - rewrite wrap32_id; [lia|unfold INT_MIN; lia].
  - pose proof (wrap32_range x). lia.
Qed.

Lemma foldM_app {A B} (f : A → B → outcome A) l1 : ∀ l2 a a',
  foldM f l1 a = Ok a' → foldM f (l1 ++ l2) a = foldM f l2 a'.
Proof.
  induction l1 as [|x l1 IH]; intros l2 a a' Hf; simpl in *.
  - by injection Hf as ->.
  - destruct (f a x) as [a1|]; [|done]. simpl in *. by apply IH.
Qed.

Lemma bind_concat_fmap {A B} (f : A → list B) (l : list A) :
  l ≫= f = concat (f <$> l).
Proof. induction l as [|x l IH]; [done|]. by rewrite bind_cons, fmap_cons, IH. Qed.

Lemma fair_nil sched : fair sched → sched [] = [].
Proof. intros Hfair. apply Permutation_nil_r, Hfair. Qed.

Lemma kept_iff ps n :
  kept ps n ↔ 1 < n ∧ ∀ p, p ∈ ps → p * p ≤ n → ¬ (p | n).
Proof.
  unfold kept, struck. rewrite Exists_exists. split.
  - intros [Hn Hno]. split; [done|]. intros p Hp Hpp Hd. apply Hno. by exists p.
  - intros [Hn Hno]. split; [done|]. intros (p & Hp & Hpp & Hd). by apply (Hno p).
Qed.




Lemma foldM_mark_prime_zero start end_ ps : ∀ v,
  0 ∈ ps → ∃ f, foldM (mark_prime start end_) ps v = Fault f.
Proof.
  induction ps as [|p ps IH]; intros v Hin; [by apply elem_of_nil in Hin|].
  simpl. apply elem_of_cons in Hin as [<-|Hin].
  - by exists DivByZero.
  - destruct (mark_prime start end_ v p) as [v'|f]; [by apply IH|by exists f].
Qed.

(** With a negative [numThreads] the launch loop does not run. *)
Lemma chunks_negative_threads start end_ numThreads :
  numThreads < 0 → chunks start end_ numThreads = Ok [].
Proof.
  intros Hn. unfold chunks, chunk_size.
  destruct (numThreads =? 0) eqn:Hz; [lia|]. simpl. unfold launch.
  replace (Z.to_nat numThreads) with 0%nat by lia. simpl.
  destruct (0 <? numThreads) eqn:Hlt; [lia|done].
Qed.

(** On an empty range the launch loop leaves at its first [break]. *)
Lemma chunks_empty_range start end_ numThreads :
  numThreads ≠ 0 → end_ < start → LLONG_MIN ≤ start ≤ LLONG_MAX →
  chunks start end_ numThreads = Ok [].
Proof.
  intros Hn He Hs.
  destruct (Z_lt_ge_dec numThreads 0) as [Hneg|Hpos];
    [by apply chunks_negative_threads|].
  unfold chunks, chunk_size.
  destruct (numThreads =? 0) eqn:Hz; [lia|]. simpl. unfold launch.
  destruct (Z.to_nat numThreads) as [|fuel] eqn:Hfuel; [lia|]. simpl.
  destruct (0 <? numThreads) eqn:Hlt; [|lia]. simpl.
  change (wrap64 0) with 0. rewrite Z.add_0_r, (wrap64_id start) by done.
  destruct (start >? end_) eqn:Hgt; [|lia]. simpl. by destruct fuel.
Qed.

(** The last loop of [main] for any [count] that is not above the size of
    the vector: it reads in bounds and runs at most ten times. *)
Lemma top_ten_total l count :
  INT_MIN ≤ count ≤ INT_MAX → count ≤ Z.of_nat (length l) →
  let i0 := Z.max 0 (wrap32 (count - 10)) in
  count - i0 ≤ 10 ∧
  top_ten l count = Ok (take (Z.to_nat (count - i0)) (drop (Z.to_nat i0) l)).
Proof.
  intros Hc Hlen i0.
  assert (0 ≤ i0 ∧ count - i0 ≤ 10) as [Hi0 Hfew].
  { subst i0. destruct (Z_le_gt_dec INT_MIN (count - 10)) as [Hle|Hgt].
    - rewrite wrap32_id by lia. lia.
    - unfold INT_MIN in *. lia. }
  split; [done|]. unfold top_ten. fold i0.
  apply_while
    (λ '(i, top), i0 ≤ i ∧ (i ≤ count ∨ i = i0) ∧
       top = take (Z.to_nat (i - i0)) (drop (Z.to_nat i0) l))
    (λ '(i, _), Z.to_nat (count - i)).
  - intros [i top] (Hi & _ & ->) Hlt. apply Z.ltb_lt in Hlt.
    destruct (lookup_is_Some_Z l i) as [x Hx]; [lia|].
    rewrite (vec_get_Ok l i x) by (lia || done). simpl.
    rewrite wrap32_id by (unfold INT_MIN, INT_MAX in *; lia).
    eexists; split; [done|]. split; [|simpl; lia]. split; [lia|]. split; [lia|].
    replace (Z.to_nat (i + 1 - i0)) with (S (Z.to_nat (i - i0))) by lia.
    symmetry. apply take_S_r. rewrite lookup_drop.
    by replace (Z.to_nat i0 + Z.to_nat (i - i0))%nat with (Z.to_nat i) by lia.
  - split; [lia|]. split; [by right|]. by rewrite Z.sub_diag.
  - simpl. lia.
  - destruct Hloop as ([i top] & -> & (Hi & Hor & ->) & Hexit). simpl.
    apply Z.ltb_ge in Hexit. do 2 f_equal. lia.
Qed.

(** The summary code ends normally on every vector. *)
Lemma summary_of_total l :
  ∃ out, summary_of l = Ok out ∧ finalPrimes out = l ∧
         (length (topTenPrimes out) ≤ 10)%nat ∧ sublist (topTenPrimes out) l.
Proof.
  unfold summary_of.
  destruct (top_ten_total l (wrap32 (Z.of_nat (length l))))
    as [Hfew ->]; [apply wrap32_range|apply wrap32_le; lia|].
  simpl. eexists. split; [done|]. simpl. split; [done|]. split.
  - rewrite length_take. lia.
  - etrans; [apply sublist_take|apply sublist_drop].
Qed.

Section main_results.
Context (sqrt_ll : Z → Z) (Hsqrt : double_sqrt sqrt_ll).

(** Where [end_] converts to [double] exactly, the base primes are the
    primes up to the integer square root of [end_]. *)
Lemma simpleSieve_sqrt_primes end_ :
  1 ≤ end_ < 2 ^ 52 →
  ∃ ps, simpleSieve (wrap32 (sqrt_ll end_)) = Ok ps ∧ Sorted Z.lt ps ∧
        ∀ p, p ∈ ps ↔ Z.prime p ∧ p ≤ Z.sqrt end_.
Proof.
  intros He. rewrite (proj1 Hsqrt) by lia.
  assert (1 ≤ Z.sqrt end_ ≤ 67108864) as Hsq.
  { split; [change 1 with (Z.sqrt 1); apply Z.sqrt_le_mono; lia|].
    change 67108864 with (Z.sqrt (2 ^ 52)). apply Z.sqrt_le_mono. lia. }
  rewrite wrap32_id by (unfold INT_MIN, INT_MAX; lia).
  destruct (decide (Z.sqrt end_ = 1)) as [->|].
  - exists []. split; [done|]. split; [constructor|].
    intros p. split; [by intros ?%elem_of_nil|].
    intros [Hp%Z.prime_ge_2 ?]. lia.
  - apply simpleSieve_spec. lia.
Qed.


End main_results.

(** ** [simpleSieve] *)



(** ** [sieveWorker] *)



(** X3.  The worker reads [smallPrimes] as a set: two vectors of base
    values with the same elements, whatever their order and repetitions,
    give the same result on the same chunk. *)
Theorem sieveWorker_base_as_set start end_ smallPrimes smallPrimes' result :
  LLONG_MIN ≤ start ≤ end_ → end_ < LLONG_MAX → end_ - start < LLONG_MAX →
  Forall (λ p, 1 ≤ p ≤ INT_MAX ∧ end_ + p ≤ LLONG_MAX) smallPrimes →
  (∀ p, p ∈ smallPrimes ↔ p ∈ smallPrimes') →
  sieveWorker start end_ smallPrimes' result =
  sieveWorker start end_ smallPrimes result.
Proof.
  intros Hs He Hsize Hps Hsame.
  assert (Forall (applicable end_) smallPrimes') as Hps'.
  { apply Forall_forall. intros p Hp%Hsame. by eapply Forall_forall in Hps. }
  rewrite !sieveWorker_spec by done. do 2 f_equal. unfold segment.
  apply filter_iff_elem_of. intros n _. rewrite !kept_iff.
  split; intros [Hn Hno]; (split; [done|]); intros p Hp; apply Hno; by apply Hsame.
Qed.

Lemma sieveWorker_base_as_set_witness :
  sieveWorker 10 60 [5; 3; 2; 3; 5] [7] = sieveWorker 10 60 [2; 3; 5] [7].
Proof.
  apply (sieveWorker_base_as_set 10 60 [2; 3; 5] [5; 3; 2; 3; 5] [7]);
    [by vm_compute..| |].
  - repeat constructor; by vm_compute.
  - intros p. rewrite !elem_of_cons, !elem_of_nil. tauto.
Defined.

(** X4.  A base prime that is missing.  The worker does not check its
    base values: when a prime [q] whose square lies in the chunk is not in
    [smallPrimes], the worker appends [q * q], which is not a prime.  This
    is why [main] must pass every prime up to the square root of [end]. *)
Theorem sieveWorker_missing_base_prime start end_ smallPrimes result q :
  LLONG_MIN ≤ start ≤ end_ → end_ < LLONG_MAX → end_ - start < LLONG_MAX →
  Forall (λ p, 2 ≤ p ≤ INT_MAX ∧ end_ + p ≤ LLONG_MAX) smallPrimes →
  Z.prime q → q ∉ smallPrimes → start ≤ q * q ≤ end_ →
  ∃ localPrimes,
    sieveWorker start end_ smallPrimes result = Ok (result ++ localPrimes) ∧
    q * q ∈ localPrimes ∧ ¬ Z.prime (q * q).
Proof.
  intros Hs He Hsize Hps Hq Hout Hin.
  destruct (applicable_of_bounds _ _ Hps) as [Happ Hps2].
  pose proof (Z.prime_ge_2 _ Hq) as Hq2.
  exists (segment smallPrimes start end_).
  split; [by apply sieveWorker_spec|]. split.
  - apply elem_of_segment. split; [done|]. apply kept_iff. split; [nia|].
    intros p Hp Hpp Hd. assert (2 ≤ p) as Hp2 by (by eapply Forall_forall in Hps2).
    destruct (prime_divisor p Hp2) as (r & Hr & Hrp).
    assert (r | q) as Hrq.
    { assert (r | q * q) as Hrqq by (by etrans).
      apply Z.divide_prime_mul in Hrqq; [tauto|done]. }
    apply Z.divide_prime_prime in Hrq as ->; [|done..].
    assert (q ≤ p) by (apply Z.divide_pos_le; [lia|done]).
    assert (p = q) as -> by nia. done.
  - intros [_ Hno]%prime_small_divisors.
    apply (Hno q); [lia|lia|]. by exists q.
Qed.

Lemma sieveWorker_missing_base_prime_witness :
  ∃ localPrimes,
    sieveWorker 1 30 [2; 3] [] = Ok ([] ++ localPrimes) ∧
    5 * 5 ∈ localPrimes ∧ ¬ Z.prime (5 * 5).
Proof.
  apply (sieveWorker_missing_base_prime 1 30 [2; 3] [] 5).
  - by vm_compute.
  - by vm_compute.
  - by vm_compute.
  - repeat constructor; by vm_compute.
  - apply prime_5.
  - rewrite !elem_of_cons, elem_of_nil. lia.
  - by vm_compute.
Defined.



(** X6.  A zero among the base values.  The worker divides by each base
    value to find its first multiple: if [smallPrimes] holds a 0 the worker
    never returns, whatever the chunk; and on a chunk within [long long],
    with the values before the first 0 of at least 1, it stops on that
    division by zero. *)
Theorem sieveWorker_zero_prime start end_ smallPrimes result :
  0 ∈ smallPrimes →
  (∃ f, sieveWorker start end_ smallPrimes result = Fault f) ∧
  (LLONG_MIN ≤ start ≤ end_ → end_ - start < LLONG_MAX →
   ∀ ps1 ps2, smallPrimes = ps1 ++ 0 :: ps2 →
     Forall (λ p, 1 ≤ p ≤ INT_MAX ∧ end_ + p ≤ LLONG_MAX) ps1 →
     sieveWorker start end_ smallPrimes result = Fault DivByZero).
Proof.
  intros Hin. unfold sieveWorker, mark_composites. split.
  - destruct (vec_new _ true) as [v|f]; [|by exists f]. simpl.
    destruct (foldM_mark_prime_zero start end_ smallPrimes v Hin) as [f ->].
    by exists f.
  - intros Hs Hsize ps1 ps2 -> Hps1.
    rewrite (wrap64_id (end_ - start)) by (unfold LLONG_MIN, LLONG_MAX in *; lia).
    rewrite wrap64_id by (unfold LLONG_MIN, LLONG_MAX in *; lia).
    rewrite vec_new_Ok by lia. simpl.
    destruct (foldM_mark_prime start end_ ps1 []
                (replicate (Z.to_nat (end_ - start + 1)) true))
      as (v' & Hv' & _); [done|done|exact Hps1|apply marked_init; lia|].
    by rewrite (foldM_app _ _ _ _ _ Hv').
Qed.

Lemma sieveWorker_zero_prime_witness :
  (∃ f, sieveWorker 1 10 [2; 0; 3] [] = Fault f) ∧
  sieveWorker 1 10 [2; 0; 3] [] = Fault DivByZero.
Proof.
  destruct (sieveWorker_zero_prime 1 10 [2; 0; 3] []) as [H1 H2].
  - rewrite !elem_of_cons. tauto.
  - split; [exact H1|].
    apply (H2 ltac:(by vm_compute) ltac:(by vm_compute) [2] [3]); [done|].
    repeat constructor; by vm_compute.
Defined.

(** ** The launch loop and the shared vector *)



(** X8.  How the work is shared.  On a range within [long long], with
    [chunkSize = ceil(rangeSize / numThreads)], the number of threads
    launched is [ceil(rangeSize / chunkSize)], between 1 and [numThreads];
    every chunk but the last holds exactly [chunkSize] numbers and the last
    holds the rest, between 1 and [chunkSize]; and when there are at least
    as many threads as numbers, each launched thread gets one number and
    only [rangeSize] threads are launched. *)
Theorem chunks_sizes start end_ numThreads :
  LLONG_MIN ≤ start ≤ end_ → 1 ≤ numThreads ≤ INT_MAX →
  end_ + numThreads ≤ LLONG_MAX → end_ - start + 1 + numThreads ≤ LLONG_MAX →
  let rangeSize := end_ - start + 1 in
  let chunkSize := (rangeSize + numThreads - 1) / numThreads in
  ∃ threads,
    chunks start end_ numThreads = Ok threads ∧
    let n := Z.of_nat (length threads) in
    1 ≤ n ≤ numThreads ∧
    n = (rangeSize + chunkSize - 1) / chunkSize ∧
    (∀ i chunkStart chunkEnd,
       threads !! i = Some (chunkStart, chunkEnd) →
       chunkEnd - chunkStart + 1 =
       if decide (Z.of_nat i < n - 1) then chunkSize
       else rangeSize - (n - 1) * chunkSize) ∧
    1 ≤ rangeSize - (n - 1) * chunkSize ≤ chunkSize ∧
    (rangeSize ≤ numThreads → chunkSize = 1 ∧ n = rangeSize).
Proof.
  intros Hs Hw Hsize Hrange rangeSize chunkSize.
  destruct (chunks_layout start end_ numThreads) as (n & Hn & Hend & Hl & _);
    [done..|].
  fold rangeSize chunkSize in Hend, Hl.
  pose proof (ceil_div_bounds rangeSize numThreads ltac:(lia) ltac:(lia)) as Hc.
  simpl in Hc. fold chunkSize in Hc.
  assert (1 ≤ chunkSize) as Hcs by nia.
  eexists. split; [exact Hl|]. rewrite length_fmap, length_seqZ.
  replace (Z.of_nat (Z.to_nat n)) with n by lia. cbv zeta.
  split; [done|]. split; [|split; [|split]].
  - apply Z.div_unique with (rangeSize + chunkSize - 1 - n * chunkSize).
    + left. subst rangeSize. lia.
    + lia.
  - intros i cs ce Hi. rewrite list_lookup_fmap in Hi.
    destruct (seqZ 0 n !! i) as [k|] eqn:Hk; [|done].
    apply lookup_seqZ in Hk as [-> Hin]. injection Hi as <- <-.
    destruct (decide (Z.of_nat i < n - 1)) as [Hlt|Hlast].
    + rewrite Z.min_r by nia. lia.
    + replace (0 + Z.of_nat i) with (n - 1) by lia. rewrite Z.min_l by lia.
      subst rangeSize. lia.
  - subst rangeSize. lia.
  - intros Hfew. assert (chunkSize = 1) as H1.
    { subst chunkSize. symmetry. apply Z.div_unique with (rangeSize - 1); lia. }
    split; [done|]. rewrite H1 in Hend. subst rangeSize. lia.
Qed.

Lemma chunks_sizes_witness :
  ∃ threads,
    chunks 1 5 4 = Ok threads ∧
    Z.of_nat (length threads) = 3 ∧
    ∀ i chunkStart chunkEnd,
      threads !! i = Some (chunkStart, chunkEnd) →
      chunkEnd - chunkStart + 1 = if decide (Z.of_nat i < 2) then 2 else 1.
Proof.
  destruct (chunks_sizes 1 5 4) as (threads & Hl & _ & Hn & Hi & _);
    [by vm_compute..|].
  exists threads. split; [exact Hl|]. split; [exact Hn|].
  intros i cs ce Hlook. rewrite (Hi i cs ce Hlook), Hn. reflexivity.
Defined.

(** X9.  The shared vector before the sort.  After the join,
    [finalPrimes] is the concatenation of the workers' local results, each
    ascending, in the order in which the workers took [resultMutex].  When
    that is the launch order the vector is already ascending and the sort
    of line 101 leaves it as it is. *)
Theorem finalPrimes_in_lock_order sched start end_ numThreads smallPrimes :
  fair sched → LLONG_MIN ≤ start ≤ end_ → 1 ≤ numThreads ≤ INT_MAX →
  end_ + numThreads ≤ LLONG_MAX → end_ - start + 1 + numThreads ≤ LLONG_MAX →
  Forall (λ p, 1 ≤ p ≤ INT_MAX ∧ end_ + p ≤ LLONG_MAX) smallPrimes →
  ∃ threads blocks,
    chunks start end_ numThreads = Ok threads ∧
    Forall2 (λ '(chunkStart, chunkEnd) localPrimes,
               sieveWorker chunkStart chunkEnd smallPrimes [] = Ok localPrimes ∧
               Sorted Z.lt localPrimes)
            (sched threads) blocks ∧
    run_workers sched start end_ numThreads smallPrimes = Ok (concat blocks) ∧
    (sched threads = threads →
     Sorted Z.lt (concat blocks) ∧ merge_sort Z.le (concat blocks) = concat blocks).
Proof.
  intros Hfair Hs Hw Hsize Hrange Hps.
  destruct (run_workers_order sched start end_ numThreads smallPrimes)
    as (l & Hl & Ht & Hrun); [done..|].
  exists l, ((λ '(cs, ce), segment smallPrimes cs ce) <$> sched l).
  split; [done|]. split; [|split].
  - apply Forall2_fmap_r, Forall_Forall2_diag, Forall_forall.
    intros [cs ce] Hin. rewrite (Hfair l) in Hin.
    destruct (tiles_bounds _ _ _ _ _ Ht Hin).
    split; [|apply Sorted_lt_segment].
    rewrite sieveWorker_spec; [done|unfold LLONG_MIN, LLONG_MAX, INT_MAX in *; lia..|].
    eapply Forall_impl; [exact Hps|]. intros p. apply applicable_le. lia.
  - by rewrite Hrun, bind_concat_fmap.
  - intros ->. rewrite <-bind_concat_fmap, (tiles_segments _ _ _ _ Ht).
    split; [apply Sorted_lt_segment|]. by apply merge_sort_segment.
Qed.

Lemma finalPrimes_in_lock_order_witness :
  ∃ threads blocks,
    chunks 1 30 3 = Ok threads ∧
    Forall2 (λ '(chunkStart, chunkEnd) localPrimes,
               sieveWorker chunkStart chunkEnd [2; 3; 5] [] = Ok localPrimes ∧
               Sorted Z.lt localPrimes)
            (reverse threads) blocks ∧
    run_workers reverse 1 30 3 [2; 3; 5] = Ok (concat blocks).
Proof.
  destruct (finalPrimes_in_lock_order reverse 1 30 3 [2; 3; 5])
    as (threads & blocks & H1 & H2 & H3 & _).
  - apply fair_reverse.
  - by vm_compute.
  - by vm_compute.
  - by vm_compute.
  - by vm_compute.
  - repeat constructor; by vm_compute.
  - exists threads, blocks. split; [exact H1|]. split; [exact H2|exact H3].
Defined.

(** ** The summary *)

(** X10.  The summary code of lines 101 to 115 never fails.  For every
    result vector, of any length and with any values, it ends normally:
    the loop for the last primes reads inside [finalPrimes] only and runs
    at most ten times, so [topTenPrimes] holds at most ten values, taken
    in order from the sorted vector. *)
Theorem summarize_total results :
  ∃ out,
    summarize results = Ok out ∧
    finalPrimes out = merge_sort Z.le results ∧
    (length (topTenPrimes out) ≤ 10)%nat ∧
    sublist (topTenPrimes out) (finalPrimes out).
Proof.
  unfold summarize.
  destruct (summary_of_total (merge_sort Z.le results)) as (out & -> & Hfp & Hlen & Hsub).
  exists out. by rewrite Hfp.
Qed.

(** X11.  The summary does not depend on the order of the result vector:
    two vectors with the same values, each as many times, give the same
    sorted vector, count, sum and last primes, also where the sum or the
    count leaves its type. *)
Theorem summarize_permutation results1 results2 :
  results1 ≡ₚ results2 → summarize results1 = summarize results2.
Proof.
  intros Hperm. unfold summarize. f_equal. apply (Sorted_unique Z.le).
  - apply Sorted_merge_sort. apply _.
  - apply Sorted_merge_sort. apply _.
  - by rewrite !merge_sort_Permutation.
Qed.

Lemma summarize_permutation_witness :
  summarize [3; 2; 7; 5] = summarize [2; 3; 7; 5].
Proof.
  apply (summarize_permutation [3; 2; 7; 5] [2; 3; 7; 5]). apply perm_swap.
Defined.

(** ** [main] *)







(** X15.  An empty range.  When [start] is above [end_] the launch loop
    leaves at the [break] of line 90 before the first thread: no worker
    runs, whatever the base primes, and [main] ends with no prime, count 0
    and sum 0. *)
Theorem main_empty_range sqrt_ll sched start end_ numThreads :
  double_sqrt sqrt_ll → fair sched → 1 ≤ end_ < 2 ^ 52 →
  end_ < start ≤ LLONG_MAX → numThreads ≠ 0 →
  chunks start end_ numThreads = Ok [] ∧
  (∀ smallPrimes, run_workers sched start end_ numThreads smallPrimes = Ok []) ∧
  main sqrt_ll sched start end_ numThreads = Ok (Summary [] 0 0 []).
Proof.
  intros Hsqrt Hfair He Hs Hn.
  assert (chunks start end_ numThreads = Ok []) as Hchunks
    by (apply chunks_empty_range; (done || unfold LLONG_MIN; lia)).
  assert (∀ ps, run_workers sched start end_ numThreads ps = Ok []) as Hrun.
  { intros ps. unfold run_workers. rewrite Hchunks. simpl. by rewrite fair_nil. }
  split; [done|]. split; [done|]. unfold main.
  destruct (simpleSieve_sqrt_primes sqrt_ll Hsqrt end_) as (ps & -> & _); [done|].
  simpl. by rewrite Hrun.
Qed.

Lemma main_empty_range_witness :
  chunks 101 100 8 = Ok [] ∧
  (∀ smallPrimes, run_workers id 101 100 8 smallPrimes = Ok []) ∧
  main Z.sqrt id 101 100 8 = Ok (Summary [] 0 0 []).
Proof.
  apply (main_empty_range Z.sqrt id 101 100 8);
    [apply double_sqrt_Z_sqrt|apply fair_id|by vm_compute..].
Defined.


